(** * jlibaio native layer: descriptor pool, completion ring and harvesting

    A shallow embedding of
    [src/main/c/org_apache_activemq_artemis_nativo_jlibaio_LibaioContext.c].

    Conventions of the embedding:
    - C [int] and [unsigned] values are integers in [Z]; every conversion and
      every arithmetic operation that can wrap is written with [wrap_int] or
      [wrap_unsigned].
    - Pointers are integers; [NULL] is [0] and [(void * ) -1] is [-1].
    - An array is a list; [array_get] and [array_set] give the in-range
      behaviour.  An out-of-range access is undefined in C: the model reads a
      default element and drops the write, and the theorems that depend on an
      access carry the bound as a hypothesis.
    - [/] and [%] on [int] are [Z.quot] and [Z.rem].  Where C leaves them
      undefined, for a zero divisor and for [INT_MIN] by [-1], the theorems
      exclude the operands by hypothesis.
    - The mutexes are not modelled: the embedding describes one thread running
      a function from entry to exit.
    - What the kernel, libc and the JVM answer is supplied by the caller of
      each definition; so are the addresses that [GetLongField] reads out of
      the context and buffer objects.
    - The calls on the JVM and on files are kept in logs; [call] lists what
      is recorded and what is not. *)

From Stdlib Require Import ZArith Lia String.
From stdpp Require Import base list gmap strings.

Local Open Scope Z_scope.

(** ** C integers *)

Definition wrap_unsigned (z : Z) : Z := z mod 2 ^ 32.

Definition wrap_int (z : Z) : Z := (z + 2 ^ 31) mod 2 ^ 32 - 2 ^ 31.

Definition is_int (z : Z) : Prop := - 2 ^ 31 <= z < 2 ^ 31.

(** [(size_t) n] *)
Definition size_t (n : Z) : Z := n mod 2 ^ 64.

Definition EINTR : Z := 4.

(** ** Arrays *)

Definition array_get {A} `{Inhabited A} (l : list A) (i : Z) : A :=
  l !!! Z.to_nat i.

Definition array_set {A} (l : list A) (i : Z) (x : A) : list A :=
  if 0 <=? i then <[Z.to_nat i := x]> l else l.

(** ** Kernel structures *)

(** [struct io_event] of libaio.h; the code reads [obj] and [res]. *)
Record io_event := mk_io_event {
  obj : Z;
  res : Z
}.

#[global] Instance io_event_inhabited : Inhabited io_event :=
  populate (mk_io_event 0 0).

Record timespec := mk_timespec {
  tv_sec : Z;
  tv_nsec : Z
}.

Record aio_ring := mk_aio_ring {
  id : Z;
  nr : Z;
  head : Z;
  tail : Z;
  magic : Z;
  compat_features : Z;
  incompat_features : Z;
  header_length : Z;
  io_events : list io_event
}.

Definition AIO_RING_MAGIC : Z := 0xa10a10a1.
Definition AIO_RING_INCOMPAT_FEATURES : Z := 0.

Definition has_usable_ring (ring : aio_ring) : bool :=
  (magic ring =? AIO_RING_MAGIC)
  && (incompat_features ring =? AIO_RING_INCOMPAT_FEATURES).

(** [ring->head = head] *)
Definition store_head (ring : aio_ring) (h : Z) : aio_ring :=
  mk_aio_ring (id ring) (nr ring) h (tail ring) (magic ring)
    (compat_features ring) (incompat_features ring) (header_length ring)
    (io_events ring).

(** What a call to [artemis_io_getevents] leaves behind: the returned [int],
    the caller's [events] buffer and the ring. *)
Definition getevents_result : Type := Z * list io_event * aio_ring.

(** The [io_getevents] system call, as seen by its caller. *)
Definition syscall : Type :=
  aio_ring -> Z -> Z -> list io_event -> option timespec -> getevents_result.

(** [timeout && timeout->tv_sec == 0 && timeout->tv_nsec == 0] *)
Definition zero_timeout (timeout : option timespec) : bool :=
  match timeout with
  | Some ts => (tv_sec ts =? 0) && (tv_nsec ts =? 0)
  | None => false
  end.

(** [int available = tail - head; if (available < 0) available += ring_nr;] *)
Definition ring_available (ring : aio_ring) : Z :=
  let available := wrap_int (wrap_unsigned (tail ring - head ring)) in
  if available <? 0
  then wrap_int (wrap_unsigned (wrap_unsigned available + nr ring))
  else available.

(** The [for] loop of the fast path, with [n] iterations left and the loop
    counter at [i]. *)
Fixpoint copy_loop (n : nat) (i : Z) (needMod : Z) (ring : aio_ring)
    (ring_nr : Z) (hd : Z) (events : list io_event) : Z * list io_event :=
  match n with
  | O => (hd, events)
  | S n' =>
      let events' := array_set events i (array_get (io_events ring) hd) in
      let hd' :=
        if needMod =? 1
        then wrap_unsigned (hd + 1) mod ring_nr
        else wrap_unsigned (hd + 1) in
      copy_loop n' (i + 1) needMod ring ring_nr hd' events'
  end.

(** The body of [if (has_usable_ring(ring)) { ... }]: [Some] when it returns,
    [None] when control falls through to the system call. *)
Definition fast_path (ring : aio_ring) (min_nr max : Z)
    (events : list io_event) (timeout : option timespec)
    : option getevents_result :=
  if has_usable_ring ring then
    let ring_nr := nr ring in
    let hd := head ring in
    let available := ring_available ring in
    if (min_nr <=? available) || zero_timeout timeout then
      if available =? 0 then Some (0, events, ring)
      else
        let available_nr :=
          wrap_int (if available <? max then available else max) in
        let needMod :=
          if ring_nr <=? wrap_unsigned (hd + available_nr) then 1 else 0 in
        let '(hd', events') :=
          copy_loop (Z.to_nat available_nr) 0 needMod ring ring_nr hd events in
        Some (available_nr, events', store_head ring hd')
    else None
  else None.

Definition artemis_io_getevents (io_getevents : syscall) (ring : aio_ring)
    (min_nr max : Z) (events : list io_event) (timeout : option timespec)
    : getevents_result :=
  match fast_path ring min_nr max events timeout with
  | Some r => r
  | None => io_getevents ring min_nr max events timeout
  end.

(** A ring as the kernel hands it out: the tag and the feature word match,
    the capacity fits an [int], both indices are below the capacity and the
    event array has [nr] entries. *)
Record ring_valid (ring : aio_ring) : Prop := {
  rv_usable : has_usable_ring ring = true;
  rv_nr : 0 < nr ring < 2 ^ 31;
  rv_head : 0 <= head ring < nr ring;
  rv_tail : 0 <= tail ring < nr ring;
  rv_events : Z.of_nat (length (io_events ring)) = nr ring
}.

(** Advancing modulo the capacity on every step, as the specification words
    the copy: the entries at [hd], [hd + 1], ... taken modulo [ring_nr]. *)
Definition ring_entries (ring : aio_ring) (hd : Z) (n : nat) : list io_event :=
  map (fun k => array_get (io_events ring) ((hd + Z.of_nat k) mod nr ring))
      (seq 0 n).

Fixpoint copy_loop_mod (n : nat) (i : Z) (ring : aio_ring) (ring_nr : Z)
    (hd : Z) (events : list io_event) : Z * list io_event :=
  match n with
  | O => (hd, events)
  | S n' =>
      copy_loop_mod n' (i + 1) ring ring_nr ((hd + 1) mod ring_nr)
        (array_set events i (array_get (io_events ring) hd))
  end.

(** ** The descriptor pool *)

(** [struct iocb] of libaio.h: the user-data slot, the operation and its
    target. *)
Record struct_iocb := mk_iocb {
  data : Z;
  aio_lio_opcode : Z;
  aio_fildes : Z;
  buf : Z;
  nbytes : Z;
  offset : Z
}.

#[global] Instance struct_iocb_inhabited : Inhabited struct_iocb :=
  populate (mk_iocb 0 0 0 0 0 0).

Definition IO_CMD_PREAD : Z := 0.
Definition IO_CMD_PWRITE : Z := 1.

Record io_control := mk_io_control {
  events : list io_event;
  thisObject : Z;
  iocb : list Z;
  queueSize : Z;
  iocbPut : Z;
  iocbGet : Z;
  used : Z
}.

(** remove an iocb from the pool of IOCBs. Returns null if full *)
Definition getIOCB (control : io_control) : Z * io_control :=
  if used control <? queueSize control then
    let used' := wrap_int (used control + 1) in
    let p := array_get (iocb control) (iocbGet control) in
    let get' := wrap_int (iocbGet control + 1) in
    let get'' := if queueSize control <=? get' then 0 else get' in
    (p, mk_io_control (events control) (thisObject control) (iocb control)
          (queueSize control) (iocbPut control) get'' used')
  else (0, control).

(** Put an iocb back on the pool of IOCBs *)
Definition putIOCB (control : io_control) (iocbBack : Z) : io_control :=
  let used' := wrap_int (used control - 1) in
  let arr := array_set (iocb control) (iocbPut control) iocbBack in
  let put' := wrap_int (iocbPut control + 1) in
  let put'' := if queueSize control <=? put' then 0 else put' in
  mk_io_control (events control) (thisObject control) arr
    (queueSize control) put'' (iocbGet control) used'.

(** [theControl->events] after [artemis_io_getevents] wrote into it. *)
Definition store_events (control : io_control) (evs : list io_event)
    : io_control :=
  mk_io_control evs (thisObject control) (iocb control) (queueSize control)
    (iocbPut control) (iocbGet control) (used control).

(** The pool as [newContext] builds it and as matched use keeps it. *)
Record pool_wf (control : io_control) : Prop := {
  wf_size : 0 < queueSize control < 2 ^ 31;
  wf_length : Z.of_nat (length (iocb control)) = queueSize control;
  wf_get : 0 <= iocbGet control < queueSize control;
  wf_put : 0 <= iocbPut control < queueSize control;
  wf_nonnull : Forall (fun p => p <> 0) (iocb control)
}.

(** Sequences of pool operations. *)
Inductive pool_op :=
| Acquire
| Release (d : Z).

Definition pool_step (control : io_control) (op : pool_op) : io_control :=
  match op with
  | Acquire => snd (getIOCB control)
  | Release d => putIOCB control d
  end.

Definition run_pool (ops : list pool_op) (control : io_control) : io_control :=
  foldl pool_step control ops.

Fixpoint remove_first (d : Z) (held : list Z) : option (list Z) :=
  match held with
  | [] => None
  | x :: held' =>
      if x =? d then Some held'
      else option_map (cons x) (remove_first d held')
  end.

(** [matched ops control held]: along [ops], started on [control] with the
    descriptors [held] handed out, every release gives back a descriptor that
    an earlier acquire handed out and that was not given back since. *)
Fixpoint matched (ops : list pool_op) (control : io_control) (held : list Z)
    : bool :=
  match ops with
  | [] => true
  | Acquire :: ops' =>
      let '(d, control') := getIOCB control in
      matched ops' control' (if d =? 0 then held else d :: held)
  | Release d :: ops' =>
      match remove_first d held with
      | Some held' => matched ops' (putIOCB control d) held'
      | None => false
      end
  end.

(** ** The JVM and the operating system, as a log of calls *)

Inductive jclass :=
| RuntimeException
| IOException.

(** The calls that the log records: those on global references, the
    exceptions thrown, the methods invoked on a completion handle and on the
    context object, the stores into the caller's array and the data syncs.
    Two functions of the JNI that the entry points call as well are not
    recorded.  [GetLongField], by which [getIOControl] and [getBuffer] read
    an address out of a buffer object, appears as its result: the argument
    [theControl], [bufferWrite] or [bufferRead] of the definitions below.
    [NewStringUTF], which builds the text handed to [onError], appears as the
    [message] of [CallVoidMethod_onError].  A statement on [calls] is a
    statement on the recorded calls. *)
Inductive call :=
| NewGlobalRef (ref : Z)
| DeleteGlobalRef (ref : Z)
| ThrowNew (cls : jclass) (message : option string)
| CallVoidMethod_onError (handle : Z) (code : Z) (message : string)
| CallVoidMethod_done (this : Z) (handle : Z)
| SetObjectArrayElement (index : Z) (handle : Z)
| fdatasync (fd : Z).

(** The state a native call runs on: the controller, the kernel's ring that
    [ioContext] points to, the descriptors by address, and the calls made so
    far, oldest first. *)
Record world := mk_world {
  control : io_control;
  ring : aio_ring;
  heap : gmap Z struct_iocb;
  calls : list call
}.

Definition with_control (w : world) (c : io_control) : world :=
  mk_world c (ring w) (heap w) (calls w).

Definition with_ring (w : world) (r : aio_ring) : world :=
  mk_world (control w) r (heap w) (calls w).

Definition with_heap (w : world) (h : gmap Z struct_iocb) : world :=
  mk_world (control w) (ring w) h (calls w).

Definition log (w : world) (c : call) : world :=
  mk_world (control w) (ring w) (heap w) (calls w ++ [c]).

(** [*p] for a descriptor pointer. *)
Definition deref (w : world) (p : Z) : struct_iocb := heap w !!! p.

(** Calls that invoke a method with a completion handle. *)
Definition is_handle_call (c : call) : bool :=
  match c with
  | CallVoidMethod_onError _ _ _ | CallVoidMethod_done _ _ => true
  | _ => false
  end.

Definition is_onError (h : Z) (c : call) : bool :=
  match c with
  | CallVoidMethod_onError h' _ _ => h' =? h
  | _ => false
  end.

Definition is_done (h : Z) (c : call) : bool :=
  match c with
  | CallVoidMethod_done _ h' => h' =? h
  | _ => false
  end.


Definition count_calls (f : call -> bool) (l : list call) : nat :=
  length (List.filter f l).

(** ** The native entry points *)

Section Native.

(** [strerror] of libc and the process-wide scratch descriptor
    [dumbWriteHandler], which [JNI_OnLoad] opens before any context exists. *)
Variable strerror : Z -> string.
Variable dumbWriteHandler : Z.

(** [asprintf_ok] tells whether [asprintf] could allocate the text; when it
    could not, [result] stays [NULL]. *)
Definition exceptionMessage (asprintf_ok : bool) (msg : string) (error : Z)
    : option string :=
  let error := if error <? 0 then wrap_int (error * -1) else error in
  if asprintf_ok then Some (String.append msg (strerror error)) else None.

Definition throwRuntimeException (w : world) (message : string) : world :=
  log w (ThrowNew RuntimeException (Some message)).

Definition throwIOException (w : world) (message : string) : world :=
  log w (ThrowNew IOException (Some message)).

Definition throwIOExceptionErrorNo (asprintf_ok : bool) (w : world)
    (message : string) (errorNumber : Z) : world :=
  log w (ThrowNew IOException (exceptionMessage asprintf_ok message errorNumber)).

Definition throwRuntimeExceptionErrorNo (asprintf_ok : bool) (w : world)
    (message : string) (errorNumber : Z) : world :=
  log w (ThrowNew RuntimeException
           (exceptionMessage asprintf_ok message errorNumber)).

(** [io_submit_result] is what [io_submit] answered for this descriptor. *)
Definition submit (io_submit_result : Z) (asprintf_ok : bool) (w : world)
    (p : Z) : Z * world :=
  let result := io_submit_result in
  if result <? 0 then
    let d := data (deref w p) in
    let w1 :=
      if negb (d =? 0) && negb (d =? -1) then log w (DeleteGlobalRef d)
      else w in
    let w2 := with_control w1 (putIOCB (control w1) p) in
    (0, throwIOExceptionErrorNo asprintf_ok w2
          "Error while submitting IO: " (wrap_int (- result)))
  else (1, w).

(** Modelled from the spec: [io_prep_pwrite] and [io_prep_pread] of libaio.h,
    which is not part of the sources.  They fill the descriptor with the
    operation kind, the target file descriptor, the memory address, the length
    and the file offset; both callers assign the user-data slot right after. *)
Definition io_prep (opcode : Z) (w : world) (p : Z) (fd buffer count off : Z)
    : world :=
  with_heap w
    (<[p := mk_iocb (data (deref w p)) opcode fd buffer count off]> (heap w)).

Definition io_prep_pwrite : world -> Z -> Z -> Z -> Z -> Z -> world :=
  io_prep IO_CMD_PWRITE.

Definition io_prep_pread : world -> Z -> Z -> Z -> Z -> Z -> world :=
  io_prep IO_CMD_PREAD.

(** [iocb->data = v] *)
Definition store_data (w : world) (p : Z) (v : Z) : world :=
  let cb := deref w p in
  with_heap w
    (<[p := mk_iocb v (aio_lio_opcode cb) (aio_fildes cb) (buf cb) (nbytes cb)
              (offset cb)]> (heap w)).

(** [theControl] is the address read from the context buffer, [newref] the
    reference [NewGlobalRef] returns for [callback]. *)
Definition submitWrite (io_submit_result : Z) (asprintf_ok : bool)
    (newref : Z) (theControl : Z) (fileHandle position size bufferWrite : Z)
    (w : world) : world :=
  if theControl =? 0 then throwRuntimeException w "Controller not initialized"
  else
    let '(p, c) := getIOCB (control w) in
    let w := with_control w c in
    if p =? 0 then throwIOException w "Not enough space in libaio queue"
    else
      let w :=
        io_prep_pwrite w p fileHandle bufferWrite (size_t size) position in
      let w := store_data (log w (NewGlobalRef newref)) p newref in
      snd (submit io_submit_result asprintf_ok w p).

Definition submitRead (io_submit_result : Z) (asprintf_ok : bool)
    (newref : Z) (theControl : Z) (fileHandle position size bufferRead : Z)
    (w : world) : world :=
  if theControl =? 0 then throwRuntimeException w "Controller not initialized"
  else
    let '(p, c) := getIOCB (control w) in
    let w := with_control w c in
    if p =? 0 then throwIOException w "Not enough space in libaio queue"
    else
      let w :=
        io_prep_pread w p fileHandle bufferRead (size_t size) position in
      let w := store_data (log w (NewGlobalRef newref)) p newref in
      snd (submit io_submit_result asprintf_ok w p).

(** One round of the [for] loop of [blockedPoll] at index [i]: the new value
    of [running], the new [lastFile] and the state. *)
Definition blockedPoll_event (useFdatasync : bool) (i : Z) (lastFile : Z)
    (w : world) : bool * Z * world :=
  let event := array_get (events (control w)) i in
  let iocbp := obj event in
  if aio_fildes (deref w iocbp) =? dumbWriteHandler then
    (false, lastFile, with_control w (putIOCB (control w) iocbp))
  else
    let '(lastFile, w) :=
      if useFdatasync && negb (lastFile =? aio_fildes (deref w iocbp))
      then (aio_fildes (deref w iocbp),
            log w (fdatasync (aio_fildes (deref w iocbp))))
      else (lastFile, w) in
    let eventResult := wrap_int (res event) in
    let w :=
      if eventResult <? 0 then
        if negb (data (deref w iocbp) =? 0) then
          log w (CallVoidMethod_onError (data (deref w iocbp))
                   (wrap_int (- eventResult))
                   (strerror (wrap_int (- eventResult))))
        else w
      else w in
    let o := data (deref w iocbp) in
    let w := with_control w (putIOCB (control w) iocbp) in
    let w :=
      if negb (o =? 0) then
        log (log w (CallVoidMethod_done (thisObject (control w)) o))
          (DeleteGlobalRef o)
      else w in
    (true, lastFile, w).

(** The [for] loop with [n] events left; it stops early when a round clears
    [running]. *)
Fixpoint blockedPoll_events (n : nat) (useFdatasync : bool) (i : Z)
    (lastFile : Z) (w : world) : bool * world :=
  match n with
  | O => (true, w)
  | S n' =>
      let '(running, lastFile, w) :=
        blockedPoll_event useFdatasync i lastFile w in
      if running then blockedPoll_events n' useFdatasync (i + 1) lastFile w
      else (false, w)
  end.

(** What the kernel does around one call to [artemis_io_getevents]: the
    entries it published in the ring since the last call, and the answer its
    system call gives if it is entered. *)
Record kernel_turn := mk_kernel_turn {
  k_publish : aio_ring -> aio_ring;
  k_io_getevents : syscall
}.

Inductive loop_exit :=
| Returned
| Waiting.

(** The [while (running)] loop of [blockedPoll], one round for each turn of
    the kernel; [Waiting] when the turns are used up and the loop would enter
    the wait again. *)
Fixpoint blockedPoll_loop (kernel : list kernel_turn) (asprintf_ok : bool)
    (useFdatasync : bool) (max : Z) (w : world) : loop_exit * world :=
  match kernel with
  | [] => (Waiting, w)
  | k :: kernel' =>
      let '(result, evs, r) :=
        artemis_io_getevents (k_io_getevents k) (k_publish k (ring w)) 1 max
          (events (control w)) None in
      let w := with_ring (with_control w (store_events (control w) evs)) r in
      if result =? - EINTR then
        blockedPoll_loop kernel' asprintf_ok useFdatasync max w
      else if result <? 0 then
        (Returned,
         throwIOExceptionErrorNo asprintf_ok w
           "Error while calling io_getevents IO: " (wrap_int (- result)))
      else
        let '(running, w) :=
          blockedPoll_events (Z.to_nat result) useFdatasync 0 (-1) w in
        if running then blockedPoll_loop kernel' asprintf_ok useFdatasync max w
        else (Returned, w)
  end.

Definition blockedPoll (kernel : list kernel_turn) (asprintf_ok : bool)
    (theControl : Z) (useFdatasync : bool) (w : world) : loop_exit * world :=
  if theControl =? 0 then
    (Returned, throwRuntimeException w "Controller not initialized")
  else
    blockedPoll_loop kernel asprintf_ok useFdatasync (queueSize (control w)) w.

(** One round of the [for] loop of [poll] at index [i]. *)
Definition poll_event (i : Z) (w : world) : world :=
  let event := array_get (events (control w)) i in
  let iocbp := obj event in
  let eventResult := wrap_int (res event) in
  let d := data (deref w iocbp) in
  let w :=
    if eventResult <? 0 then
      if negb (d =? 0) && negb (d =? -1) then
        log w (CallVoidMethod_onError d (wrap_int (- eventResult))
                 (strerror (wrap_int (- eventResult))))
      else w
    else w in
  let w :=
    if negb (d =? 0) && negb (d =? -1) then
      log (log w (SetObjectArrayElement i d)) (DeleteGlobalRef d)
    else w in
  with_control w (putIOCB (control w) iocbp).

Fixpoint poll_events (n : nat) (i : Z) (w : world) : world :=
  match n with
  | O => w
  | S n' => poll_events n' (i + 1) (poll_event i w)
  end.

Definition poll (io_getevents : syscall) (theControl : Z) (min max : Z)
    (w : world) : Z * world :=
  if theControl =? 0 then
    (0, throwRuntimeException w "Controller not initialized")
  else
    let '(result, evs, r) :=
      artemis_io_getevents io_getevents (ring w) min max
        (events (control w)) None in
    let w := with_ring (with_control w (store_events (control w) evs)) r in
    let retVal := result in
    (retVal, poll_events (Z.to_nat result) 0 w).

(** ** Aligned buffers *)

(** A direct byte buffer: its address, its capacity and the bytes it covers. *)
Record direct_buffer := mk_direct_buffer {
  address : Z;
  capacity : Z;
  contents : list Byte.byte
}.

(** [memset(buffer, c, n)] on the bytes at [buffer]. *)
Definition memset (block : list Byte.byte) (c : Byte.byte) (n : Z)
    : list Byte.byte :=
  replicate (Z.to_nat n `min` length block)%nat c
  ++ drop (Z.to_nat n) block.

(** [posix_memalign] answers with its return code, the address and the
    bytes found at that address; [NewDirectByteBuffer] wraps the first [size]
    of them.  [size % alignment] is the remainder of the division that
    truncates, [Z.rem]; in C the operation is undefined for [alignment = 0]
    and for [size = INT_MIN] with [alignment = -1], where the processor
    traps: what the definition gives there has no meaning, and the theorems
    on it exclude both by hypothesis. *)
Definition newAlignedBuffer
    (posix_memalign : Z -> Z -> Z * Z * list Byte.byte) (asprintf_ok : bool)
    (size alignment : Z) (w : world) : option direct_buffer * world :=
  if negb (wrap_int (Z.rem size alignment) =? 0) then
    (None,
     throwRuntimeException w
       "Buffer size needs to be aligned to passed argument")
  else
    let '(result, buffer, block) :=
      posix_memalign (size_t alignment) (size_t size) in
    if negb (result =? 0) then
      (None,
       throwRuntimeExceptionErrorNo asprintf_ok w
         "Can't allocate posix buffer:" result)
    else
      let block := memset block Byte.x00 (size_t size) in
      (Some (mk_direct_buffer buffer size (take (Z.to_nat size) block)), w).

End Native.

(** ** Creating and destroying a context *)

Inductive block :=
| ControlBlock
| IocbArray
| EventBuffer
| Iocb (p : Z).

Inductive mutex :=
| iocbLock
| pollLock.

(** The calls by which [newContext] and [deleteContext] obtain and give back
    what a context is made of; [malloc] stands for a call that returned a
    block. *)
Inductive native_call :=
| malloc (b : block)
| free (b : block)
| io_queue_init (nr_events : Z) (res : Z)
| io_queue_release
| pthread_mutex_init (m : mutex) (res : Z)
| pthread_mutex_destroy (m : mutex)
| jni (c : call)
| ThrowNew_OutOfMemoryError.

(** What the environment answers to [newContext]: whether the control block
    could be allocated, the result of [io_queue_init] and the ring set up by
    it, whether the pointer array could be allocated, the addresses that the
    successive allocations of a [struct iocb] return (null, or no answer
    left, for a failure) with the descriptors found there, the results of the
    two [pthread_mutex_init], the event buffer ([None] for null) and the
    reference that [NewGlobalRef] returns. *)
Record newContext_answers := mk_newContext_answers {
  control_block : bool;
  queue_init : Z;
  queue_ring : aio_ring;
  iocb_array : bool;
  iocb_blocks : list Z;
  iocb_contents : gmap Z struct_iocb;
  iocbLock_init : Z;
  pollLock_init : Z;
  event_buffer : option (list io_event);
  this_ref : Z;
  new_asprintf_ok : bool
}.

(** [iocb_destroy_members]: frees the first [upperBound] slots. *)
Definition iocb_destroy_members (slots : list Z) (upperBound : Z)
    : list native_call :=
  map (fun i => free (Iocb (array_get slots i))) (seqZ 0 upperBound).

(** [iocb_destroy_bounded] *)
Definition iocb_destroy_bounded (slots : list Z) (upperBound : Z)
    : list native_call :=
  iocb_destroy_members slots upperBound ++ [free IocbArray].

(** [iocb_destroy] *)
Definition iocb_destroy (theControl : io_control) : list native_call :=
  iocb_destroy_bounded (iocb theControl) (queueSize theControl).

(** The allocation loop of [newContext] with [n] rounds left: the slots
    filled so far and whether the loop ran to its end. *)
Fixpoint newContext_iocbs (n : nat) (answers : list Z) (slots : list Z)
    : list Z * bool :=
  match n with
  | O => (slots, true)
  | S n' =>
      match answers with
      | [] => (slots, false)
      | p :: answers' =>
          if p =? 0 then (slots, false)
          else newContext_iocbs n' answers' (slots ++ [p])
      end
  end.

Section Context.

Variable strerror : Z -> string.
Variable dumbWriteHandler : Z.

Definition native_throwRuntimeExceptionErrorNo (asprintf_ok : bool)
    (message : string) (errorNumber : Z) : native_call :=
  jni (ThrowNew RuntimeException
         (exceptionMessage strerror asprintf_ok message errorNumber)).

(** [newContext] up to its last statement: [None] when one of its checks
    failed, each of which ends in [return NULL], otherwise the state of the
    context it built; and the calls made.  The object that the function
    returns is given by [newContext_return]. *)
Definition newContext (a : newContext_answers) (queueSize : Z)
    : option world * list native_call :=
  if negb (control_block a) then (None, [ThrowNew_OutOfMemoryError])
  else
    let log0 := [malloc ControlBlock;
                 io_queue_init queueSize (queue_init a)] in
    if negb (queue_init a =? 0) then
      (None,
       log0
       ++ [io_queue_release; free ControlBlock;
           native_throwRuntimeExceptionErrorNo (new_asprintf_ok a)
             "Cannot initialize queue:" (queue_init a)])
    else if negb (iocb_array a) then
      (None,
       log0 ++ [io_queue_release; free ControlBlock;
                ThrowNew_OutOfMemoryError])
    else
      let log1 := log0 ++ [malloc IocbArray] in
      let '(slots, complete) :=
        newContext_iocbs (Z.to_nat queueSize) (iocb_blocks a) [] in
      let log2 := log1 ++ map (fun p => malloc (Iocb p)) slots in
      if negb complete then
        (None,
         log2
         ++ iocb_destroy_bounded slots (Z.of_nat (length slots))
         ++ [io_queue_release; free ControlBlock; ThrowNew_OutOfMemoryError])
      else
        let log3 := log2 ++ [pthread_mutex_init iocbLock (iocbLock_init a)] in
        if negb (iocbLock_init a =? 0) then
          (None,
           log3
           ++ iocb_destroy_bounded slots queueSize
           ++ [io_queue_release; free ControlBlock;
               native_throwRuntimeExceptionErrorNo (new_asprintf_ok a)
                 "Can't initialize mutext:" (iocbLock_init a)])
        else
          let log4 :=
            log3 ++ [pthread_mutex_init pollLock (pollLock_init a)] in
          if negb (pollLock_init a =? 0) then
            (None,
             log4
             ++ iocb_destroy_bounded slots queueSize
             ++ [io_queue_release; free ControlBlock;
                 native_throwRuntimeExceptionErrorNo (new_asprintf_ok a)
                   "Can't initialize mutext:" (pollLock_init a)])
          else
            match event_buffer a with
            | None =>
                (None,
                 log4
                 ++ iocb_destroy_bounded slots queueSize
                 ++ [io_queue_release; free ControlBlock;
                     native_throwRuntimeExceptionErrorNo (new_asprintf_ok a)
                       "Can't initialize mutext (not enough memory for the events member): "
                       (pollLock_init a)])
            | Some evs =>
                (Some
                   (mk_world
                      (mk_io_control evs (this_ref a) slots queueSize 0 0 0)
                      (queue_ring a) (iocb_contents a) []),
                 log4
                 ++ [malloc EventBuffer; jni (NewGlobalRef (this_ref a))])
            end.

(** The [jobject] that [newContext] returns: null after a failed check,
    otherwise what [NewDirectByteBuffer] answers for the control block in the
    last statement, [direct_buffer], which is null when the JVM cannot create
    the buffer object; the function does not look at it. *)
Definition newContext_return (direct_buffer : Z) (built : option world) : Z :=
  match built with
  | None => 0
  | Some _ => direct_buffer
  end.

(** The loop of [deleteContext] that puts back what the last drain found. *)
Fixpoint deleteContext_events (n : nat) (i : Z) (w : world) : world :=
  match n with
  | O => w
  | S n' =>
      let iocbp := obj (array_get (events (control w)) i) in
      deleteContext_events n' (i + 1)
        (with_control w (putIOCB (control w) iocbp))
  end.

(** The first part of [deleteContext], up to the submission of the dumb
    write: whether to go on, and the state. *)
Definition deleteContext_submit (io_submit_result : Z) (asprintf_ok : bool)
    (theControl : Z) (w : world) : bool * world :=
  if theControl =? 0 then
    (false, throwRuntimeException w "Controller not initialized")
  else
    let '(p, c) := getIOCB (control w) in
    let w := with_control w c in
    if p =? 0 then
      (false, throwIOException w "Not enough space in libaio queue")
    else
      let w := io_prep_pwrite w p dumbWriteHandler 0 0 0 in
      let w := store_data w p (-1) in
      let '(ok, w) := submit strerror io_submit_result asprintf_ok w p in
      (negb (ok =? 0), w).

(** [deleteContext].  [poller] is what the polling thread does to the state
    until it leaves its loop and gives up [pollLock], which the lock and
    unlock in the middle of the function wait for; [io_getevents] answers the
    last drain if it enters the system call. *)
Definition deleteContext (io_submit_result : Z) (asprintf_ok : bool)
    (poller : world -> world) (io_getevents : syscall) (theControl : Z)
    (w : world) : world * list native_call :=
  let '(go_on, w) :=
    deleteContext_submit io_submit_result asprintf_ok theControl w in
  if negb go_on then (w, [])
  else
    let w := poller w in
    let '(result, evs, r) :=
      artemis_io_getevents io_getevents (ring w) 0 1 (events (control w))
        None in
    let w := with_ring (with_control w (store_events (control w) evs)) r in
    let w := deleteContext_events (Z.to_nat result) 0 w in
    (w,
     [io_queue_release; pthread_mutex_destroy pollLock;
      pthread_mutex_destroy iocbLock]
     ++ iocb_destroy (control w)
     ++ [jni (DeleteGlobalRef (thisObject (control w)));
         free EventBuffer; free ControlBlock]).

End Context.

(** The blocks a sequence of calls allocated, and those it freed. *)
Definition allocated (l : list native_call) : list block :=
  flat_map (fun c => match c with malloc b => [b] | _ => [] end) l.

Definition freed (l : list native_call) : list block :=
  flat_map (fun c => match c with free b => [b] | _ => [] end) l.

Definition is_pthread_mutex_destroy (c : native_call) : bool :=
  match c with
  | pthread_mutex_destroy _ => true
  | _ => false
  end.

Definition is_native_throw (c : native_call) : bool :=
  match c with
  | ThrowNew_OutOfMemoryError | jni (ThrowNew _ _) => true
  | _ => false
  end.

(** ** Filling a file, the scratch descriptor *)

Definition ONE_MEGA : Z := 1048576.

(** Calls on file descriptors. *)
Inductive file_call :=
| lseek (fd : Z) (offset : Z)
| write (fd : Z) (buffer : Z) (count : Z)
| close (fd : Z)
| unlink_dumbPath.

(** [verifyBuffer]: the returned [short] and the new value of the global
    [oneMegaBuffer], given as its address and the bytes there (address 0 for
    null).  A failed [posix_memalign] is taken to leave the pointer as it
    was. *)
Definition verifyBuffer
    (posix_memalign : Z -> Z -> Z * Z * list Byte.byte) (alignment : Z)
    (oneMegaBuffer : Z * list Byte.byte) : Z * (Z * list Byte.byte) :=
  if fst oneMegaBuffer =? 0 then
    let '(res, buffer, block) :=
      posix_memalign (size_t alignment) ONE_MEGA in
    if negb (res =? 0) then (-1, oneMegaBuffer)
    else (0, (buffer, memset block Byte.x00 ONE_MEGA))
  else (0, oneMegaBuffer).

(** The loop of [fill] over the whole blocks, [n] rounds left, [i] writes
    made so far; [write_result i] is what the write number [i] returns. *)
Fixpoint fill_blocks (n : nat) (i : nat) (write_result : nat -> Z)
    (fd buffer : Z) : list file_call * bool :=
  match n with
  | O => ([], true)
  | S n' =>
      if write_result i <? 0 then ([write fd buffer ONE_MEGA], false)
      else
        let '(l, ok) := fill_blocks n' (S i) write_result fd buffer in
        (write fd buffer ONE_MEGA :: l, ok)
  end.

(** [fill]: the new [oneMegaBuffer], the calls on the file and the text of
    the [IOException] thrown, if any. *)
Definition fill (posix_memalign : Z -> Z -> Z * Z * list Byte.byte)
    (write_result : nat -> Z) (oneMegaBuffer : Z * list Byte.byte)
    (fd alignment size : Z)
    : (Z * list Byte.byte) * list file_call * option string :=
  let blocks := wrap_int (Z.quot size ONE_MEGA) in
  let rest := wrap_int (Z.rem size ONE_MEGA) in
  let oneMegaBuffer := snd (verifyBuffer posix_memalign alignment oneMegaBuffer) in
  let buffer := fst oneMegaBuffer in
  let log := [lseek fd 0] in
  let '(l, ok) := fill_blocks (Z.to_nat blocks) 0 write_result fd buffer in
  let log := log ++ l in
  if negb ok then (oneMegaBuffer, log, Some "Cannot initialize file"%string)
  else if negb (rest =? 0) then
    if write_result (Z.to_nat blocks) <? 0 then
      (oneMegaBuffer, log ++ [write fd buffer (size_t rest)],
       Some "Cannot initialize file with final rest"%string)
    else
      (oneMegaBuffer, log ++ [write fd buffer (size_t rest); lseek fd 0], None)
  else (oneMegaBuffer, log ++ [lseek fd 0], None).

(** [closeDumbHandlers]: the new value of [dumbWriteHandler] and the calls
    made, in the order of the statements. *)
Definition closeDumbHandlers (dumbWriteHandler : Z) : Z * list file_call :=
  if negb (dumbWriteHandler =? 0) then
    let dumbWriteHandler := 0 in
    (dumbWriteHandler, [close dumbWriteHandler; unlink_dumbPath])
  else (dumbWriteHandler, []).


Definition is_write (c : file_call) : bool :=
  match c with
  | write _ _ _ => true
  | _ => false
  end.

(** ** Call sequences used to state the properties *)

Definition is_fdatasync (c : call) : bool :=
  match c with
  | fdatasync _ => true
  | _ => false
  end.

(** The reference release of a failed submission: a stored handle that is
    neither null nor the sentinel marker is deleted. *)
Definition release_handle (d : Z) : list call :=
  if negb (d =? 0) && negb (d =? -1) then [DeleteGlobalRef d] else [].

(** The [onError] delivery for an event whose result, read as an [int], is
    negative. *)
Definition error_delivery (strerror : Z -> string) (h : Z) (e : io_event)
    : list call :=
  if wrap_int (res e) <? 0 then
    [CallVoidMethod_onError h (wrap_int (- wrap_int (res e)))
       (strerror (wrap_int (- wrap_int (res e))))]
  else [].

(** Delivery of one event by the continuous loop to the handle found in the
    event's descriptor: [onError] for a negative result, then the done
    notification, then the release of the reference. *)
Definition blockedPoll_dispatch (strerror : Z -> string) (w : world)
    (e : io_event) : list call :=
  let h := data (deref w (obj e)) in
  if h =? 0 then []
  else error_delivery strerror h e
       ++ [CallVoidMethod_done (thisObject (control w)) h; DeleteGlobalRef h].

(** Delivery of the event at index [i] by the bounded poll. *)
Definition poll_dispatch (strerror : Z -> string) (w : world) (i : Z)
    (e : io_event) : list call :=
  let h := data (deref w (obj e)) in
  if negb (h =? 0) && negb (h =? -1) then
    error_delivery strerror h e
    ++ [SetObjectArrayElement i h; DeleteGlobalRef h]
  else [].

(** ** Sample states *)

(** A ring of capacity 4 with nothing to read. *)
Definition idle_ring : aio_ring :=
  mk_aio_ring 0 4 0 0 AIO_RING_MAGIC 0 0 32
    [mk_io_event 0 0; mk_io_event 0 0; mk_io_event 0 0; mk_io_event 0 0].

(** A ring of capacity 4 whose two unread entries straddle the end. *)
Definition wrapped_ring : aio_ring :=
  mk_aio_ring 0 4 3 1 AIO_RING_MAGIC 0 0 32
    [mk_io_event 100 4096; mk_io_event 200 0; mk_io_event 300 0;
     mk_io_event 400 (-5)].

Definition empty_buffer : list io_event := replicate 4 (mk_io_event 0 0).

(** A wait that ends with one completion for the descriptor at 100. *)
Definition wait_one : syscall :=
  fun r _ _ evs _ => (1, array_set evs 0 (mk_io_event 100 4096), r).

(** A wait interrupted by a signal. *)
Definition wait_interrupted : syscall :=
  fun r _ _ evs _ => (- EINTR, evs, r).

(** A pool of two descriptors, as [newContext] leaves it. *)
Definition fresh_pool : io_control :=
  mk_io_control empty_buffer 9 [100; 200] 2 0 0 0.

Definition sample_strerror (errnum : Z) : string :=
  if errnum =? 9 then "Bad file descriptor"
  else if errnum =? 5 then "Input/output error"
  else if errnum =? 4 then "Interrupted system call"
  else "Unknown error".

(** The two descriptors of [fresh_pool], not yet prepared. *)
Definition sample_heap : gmap Z struct_iocb :=
  <[100 := mk_iocb 0 0 0 0 0 0]> (<[200 := mk_iocb 0 0 0 0 0 0]> ∅).

Definition sample_world : world :=
  mk_world fresh_pool idle_ring sample_heap [].

(** Shutdown with a write still in flight: both descriptors of the pool are
    handed out, the one at 100 carries the sentinel write on the scratch
    descriptor 3, the one at 200 a write on descriptor 5 for handle 77. *)
Definition busy_heap : gmap Z struct_iocb :=
  <[100 := mk_iocb (-1) IO_CMD_PWRITE 3 0 0 0]>
    (<[200 := mk_iocb 77 IO_CMD_PWRITE 5 8192 4096 0]> ∅).

Definition busy_world : world :=
  mk_world (mk_io_control empty_buffer 9 [100; 200] 2 0 0 2) idle_ring
    busy_heap [].

(** A wait that ends with the sentinel's completion followed by the
    completion of the write. *)
Definition wait_shutdown : syscall :=
  fun r _ _ evs _ =>
    (2, array_set (array_set evs 0 (mk_io_event 100 0)) 1
          (mk_io_event 200 4096), r).

Definition shutdown_turn : kernel_turn := mk_kernel_turn (fun r => r) wait_shutdown.

Definition interrupted_turn : kernel_turn :=
  mk_kernel_turn (fun r => r) wait_interrupted.

(** Two completed writes, the first failed with [EIO]: the descriptor at 200
    holds handle 77, the one at 100 handle 66, both on descriptor 5. *)
Definition harvest_heap : gmap Z struct_iocb :=
  <[100 := mk_iocb 66 IO_CMD_PWRITE 5 0 4096 0]>
    (<[200 := mk_iocb 77 IO_CMD_PWRITE 5 8192 4096 4096]> ∅).

Definition harvest_world : world :=
  mk_world
    (mk_io_control
       [mk_io_event 200 (-5); mk_io_event 100 4096; mk_io_event 0 0;
        mk_io_event 0 0]
       9 [100; 200] 2 0 0 2)
    idle_ring harvest_heap [].

(** An allocator that hands out eight bytes of stale memory at 4096. *)
Definition stale_memalign (alignment size : Z) : Z * Z * list Byte.byte :=
  (0, 4096, replicate 8 Byte.xff).

(** ** Descriptors in flight *)

(** The descriptors that are handed out at the end of [ops], tracked as
    [matched] does. *)
Fixpoint handed_out (ops : list pool_op) (control : io_control)
    (held : list Z) : list Z :=
  match ops with
  | [] => held
  | Acquire :: ops' =>
      let '(d, control') := getIOCB control in
      handed_out ops' control' (if d =? 0 then held else d :: held)
  | Release d :: ops' =>
      match remove_first d held with
      | Some held' => handed_out ops' (putIOCB control d) held'
      | None => held
      end
  end.

(** The slots that hold a descriptor ready to be handed out: the
    [queueSize - used] slots from [iocbGet] on, around the end of the array,
    in the order in which [getIOCB] will take them. *)
Definition available_slots (control : io_control) : list Z :=
  map (fun k => array_get (iocb control)
                  ((iocbGet control + Z.of_nat k) mod queueSize control))
      (seq 0 (Z.to_nat (queueSize control - used control))).

(** The bookkeeping of a pool that started with the descriptors [init] and
    has [held] handed out: the counter counts [held], the write position is
    the end of the available slots, and every descriptor is either in an
    available slot or handed out. *)
Record pool_tracks (init : list Z) (control : io_control) (held : list Z)
    : Prop := {
  pt_wf : pool_wf control;
  pt_used : used control = Z.of_nat (length held);
  pt_bound : used control <= queueSize control;
  pt_put :
    iocbPut control
    = (iocbGet control + (queueSize control - used control))
      mod queueSize control;
  pt_perm : available_slots control ++ held ≡ₚ init;
  pt_nonnull : Forall (fun p => p <> 0) init
}.

(** The data-sync calls of a batch of the continuous loop whose events
    target the descriptors [fds], with [lastFile] the descriptor synced
    last: one call wherever the descriptor differs from the one before. *)
Fixpoint sync_calls (lastFile : Z) (fds : list Z) : list call :=
  match fds with
  | [] => []
  | fd :: fds' =>
      if lastFile =? fd then sync_calls lastFile fds'
      else fdatasync fd :: sync_calls fd fds'
  end.

(** A wait that ends with the completion [e] alone. *)
Definition wait_for (e : io_event) : syscall :=
  fun r _ _ evs _ => (1, array_set evs 0 e, r).

(** The calls of the rounds of the continuous loop for the events [es],
    none of them a sentinel, in the state [w]. *)
Fixpoint batch_calls (strerror : Z -> string) (w : world)
    (useFdatasync : bool) (lastFile : Z) (es : list io_event) : list call :=
  match es with
  | [] => []
  | e :: es' =>
      let fd := aio_fildes (deref w (obj e)) in
      if useFdatasync && negb (lastFile =? fd) then
        fdatasync fd
        :: blockedPoll_dispatch strerror w e
           ++ batch_calls strerror w useFdatasync fd es'
      else
        blockedPoll_dispatch strerror w e
        ++ batch_calls strerror w useFdatasync lastFile es'
  end.

(** Answers with which [newContext] succeeds for a queue of two. *)
Definition good_answers : newContext_answers :=
  mk_newContext_answers true 0 idle_ring true [100; 200; 300] sample_heap
    0 0 (Some empty_buffer) 9 true.

(** Answers for a queue of two where the second descriptor cannot be
    allocated. *)
Definition short_answers : newContext_answers :=
  mk_newContext_answers true 0 idle_ring true [100; 0] sample_heap
    0 0 (Some empty_buffer) 9 true.



(** An allocator that hands out one megabyte of stale memory at 8192. *)
Definition mega_memalign (alignment size : Z) : Z * Z * list Byte.byte :=
  (0, 8192, replicate (Z.to_nat ONE_MEGA) Byte.xff).


Definition third_write_fails (i : nat) : Z :=
  if Nat.eqb i 2 then -1 else ONE_MEGA.

(** * Properties *)

(** ** C integers *)

Lemma wrap_int_small z : is_int z -> wrap_int z = z.
Proof.
  unfold is_int, wrap_int. intros Hz.
  rewrite Z.mod_small by lia. lia.
Qed.

Lemma wrap_unsigned_small z : 0 <= z < 2 ^ 32 -> wrap_unsigned z = z.
Proof. unfold wrap_unsigned. intros Hz. now rewrite Z.mod_small. Qed.

Lemma wrap_int_is_int z : is_int (wrap_int z).
Proof.
  unfold is_int, wrap_int.
  pose proof (Z.mod_pos_bound (z + 2 ^ 31) (2 ^ 32)). lia.
Qed.

Lemma wrap_int_pred_succ z : is_int z -> wrap_int (wrap_int (z + 1) - 1) = z.
Proof.
  unfold is_int, wrap_int. intros Hz.
  destruct (Z.eq_dec z (2 ^ 31 - 1)) as [->|Hne].
  - reflexivity.
  - rewrite (Z.mod_small (z + 1 + 2 ^ 31)) by lia.
    rewrite Z.mod_small by lia. lia.
Qed.

(** ** The completion ring *)

Lemma ring_available_mod ring :
  ring_valid ring ->
  ring_available ring = (tail ring - head ring) mod nr ring.
Proof.
  intros [_ Hnr Hh Ht _]. unfold ring_available.
  destruct (Z_lt_le_dec (tail ring) (head ring)) as [Hlt|Hle].
  - assert (Ha : wrap_int (wrap_unsigned (tail ring - head ring))
                 = tail ring - head ring).
    { unfold wrap_int, wrap_unsigned.
      replace (tail ring - head ring)
        with (tail ring - head ring + 2 ^ 32 + (-1) * 2 ^ 32) by lia.
      rewrite Z.mod_add by lia.
      rewrite (Z.mod_small (tail ring - head ring + 2 ^ 32)) by lia.
      replace (tail ring - head ring + 2 ^ 32 + 2 ^ 31)
        with (tail ring - head ring + 2 ^ 31 + 1 * 2 ^ 32) by lia.
      rewrite Z.mod_add by lia.
      rewrite Z.mod_small by lia. lia. }
    rewrite Ha.
    destruct (Z.ltb_spec (tail ring - head ring) 0); [|lia].
    unfold wrap_unsigned at 2.
    replace (tail ring - head ring)
      with (tail ring - head ring + 2 ^ 32 + (-1) * 2 ^ 32) at 1 by lia.
    rewrite Z.mod_add by lia.
    rewrite (Z.mod_small (tail ring - head ring + 2 ^ 32)) by lia.
    unfold wrap_unsigned.
    replace (tail ring - head ring + 2 ^ 32 + nr ring)
      with (tail ring - head ring + nr ring + 1 * 2 ^ 32) by lia.
    rewrite Z.mod_add by lia.
    rewrite Z.mod_small by lia.
    rewrite wrap_int_small by (unfold is_int; lia).
    replace (tail ring - head ring)
      with (tail ring - head ring + nr ring + (-1) * nr ring) at 2 by lia.
    rewrite Z.mod_add by lia.
    now rewrite Z.mod_small by lia.
  - rewrite wrap_unsigned_small by lia.
    rewrite wrap_int_small by (unfold is_int; lia).
    destruct (Z.ltb_spec (tail ring - head ring) 0); [lia|].
    now rewrite Z.mod_small by lia.
Qed.

Lemma ring_available_bounds ring :
  ring_valid ring -> 0 <= ring_available ring < nr ring.
Proof.
  intros Hv. rewrite ring_available_mod by assumption.
  apply Z.mod_pos_bound. destruct Hv. lia.
Qed.

(** C1, as the code has it.  On a valid ring the reader computes
    [available = (tail - head) mod capacity].  With [available = 0] it returns
    zero completions, leaving buffer and ring as they are, when the requested
    minimum is not positive or the caller passed a zero timeout.  Whenever
    [available < min_nr], the empty ring included, and no zero timeout was
    passed, the ring is not drained and the result is the one of the blocking
    system call. *)
Theorem artemis_io_getevents_threshold
    (io_getevents : syscall) (ring : aio_ring) (min_nr max : Z)
    (evs : list io_event) (timeout : option timespec) :
  ring_valid ring ->
  ring_available ring = (tail ring - head ring) mod nr ring
  /\ (ring_available ring = 0 ->
      min_nr <= 0 \/ zero_timeout timeout = true ->
      artemis_io_getevents io_getevents ring min_nr max evs timeout
      = (0, evs, ring))
  /\ (ring_available ring < min_nr ->
      zero_timeout timeout = false ->
      fast_path ring min_nr max evs timeout = None
      /\ artemis_io_getevents io_getevents ring min_nr max evs timeout
         = io_getevents ring min_nr max evs timeout).
Proof.
  intros Hv. split; [now apply ring_available_mod|].
  pose proof (rv_usable _ Hv) as Hu.
  split.
  - intros H0 Hcond. unfold artemis_io_getevents, fast_path.
    rewrite Hu, H0.
    assert (Hc : (min_nr <=? 0) || zero_timeout timeout = true).
    { destruct Hcond as [Hm| ->].
      - apply Z.leb_le in Hm. now rewrite Hm.
      - apply orb_true_r. }
    now rewrite Hc.
  - intros Hlt Hz.
    assert (Hnone : fast_path ring min_nr max evs timeout = None).
    { unfold fast_path. rewrite Hu, Hz.
      destruct (Z.leb_spec min_nr (ring_available ring)); [lia|reflexivity]. }
    split; [exact Hnone|].
    unfold artemis_io_getevents. now rewrite Hnone.
Qed.

Lemma idle_ring_valid : ring_valid idle_ring.
Proof. split; cbn; first [reflexivity | lia]. Qed.

Lemma artemis_io_getevents_threshold_witness :
  artemis_io_getevents wait_one idle_ring 0 4 empty_buffer None
  = (0, empty_buffer, idle_ring)
  /\ artemis_io_getevents wait_one idle_ring 1 4 empty_buffer None
     = wait_one idle_ring 1 4 empty_buffer None.
Proof.
  split.
  - apply (artemis_io_getevents_threshold
             wait_one idle_ring 0 4 empty_buffer None).
    + split; cbn; first [reflexivity | lia].
    + reflexivity.
    + left. lia.
  - apply (artemis_io_getevents_threshold
             wait_one idle_ring 1 4 empty_buffer None).
    + split; cbn; first [reflexivity | lia].
    + vm_compute. reflexivity.
    + reflexivity.
Defined.

(** C1 as worded fails: on a valid ring with [available = 0], a caller that
    asks for at least one completion without a zero timeout does not get zero
    completions; it gets what the blocking wait delivers, here one. *)
Lemma getevents_empty_ring_enters_wait :
  ring_valid idle_ring
  /\ ring_available idle_ring = 0
  /\ fst (fst (artemis_io_getevents wait_one idle_ring 1 4 empty_buffer None))
     = 1
  /\ fst (fst (artemis_io_getevents wait_one idle_ring 1 4 empty_buffer None))
     <> 0.
Proof.
  split; [exact idle_ring_valid|].
  split; [reflexivity|]. split; [reflexivity|].
  vm_compute. discriminate.
Qed.

(** The conditional increment agrees with the increment modulo the capacity:
    either every step takes [%], or the head never reaches the capacity. *)
Lemma copy_loop_conditional_mod ring ring_nr needMod :
  0 < ring_nr < 2 ^ 31 ->
  forall n i hd evs,
    0 <= hd < ring_nr ->
    needMod = 1 \/ (needMod <> 1 /\ hd + Z.of_nat n < ring_nr) ->
    copy_loop n i needMod ring ring_nr hd evs
    = copy_loop_mod n i ring ring_nr hd evs.
Proof.
  intros Hnr. induction n as [|n IH]; intros i hd evs Hhd Hmod; [reflexivity|].
  cbn [copy_loop copy_loop_mod].
  rewrite wrap_unsigned_small by lia.
  destruct Hmod as [->|[Hne Hlt]].
  - cbn [Z.eqb Pos.eqb]. apply IH; [|now left].
    apply Z.mod_pos_bound. lia.
  - destruct (Z.eqb_spec needMod 1) as [|_]; [contradiction|].
    rewrite <- (Z.mod_small (hd + 1) ring_nr) at 1 by lia.
    apply IH.
    + apply Z.mod_pos_bound. lia.
    + right. split; [assumption|]. rewrite Z.mod_small by lia. lia.
Qed.

Lemma ring_entries_succ ring hd n :
  0 < nr ring -> 0 <= hd < nr ring ->
  ring_entries ring hd (S n)
  = array_get (io_events ring) hd
    :: ring_entries ring ((hd + 1) mod nr ring) n.
Proof.
  intros Hnr Hhd. unfold ring_entries. cbn [seq map]. f_equal.
  - now rewrite Z.add_0_r, Z.mod_small.
  - rewrite <- seq_shift, map_map. apply map_ext. intros k.
    rewrite Z.add_mod_idemp_l by lia. f_equal. f_equal. lia.
Qed.

Lemma copy_loop_mod_spec ring :
  0 < nr ring ->
  forall n (j : nat) hd evs,
    0 <= hd < nr ring ->
    (j + n <= length evs)%nat ->
    copy_loop_mod n (Z.of_nat j) ring (nr ring) hd evs
    = ((hd + Z.of_nat n) mod nr ring,
       take j evs ++ ring_entries ring hd n ++ drop (j + n) evs).
Proof.
  intros Hnr. induction n as [|n IH]; intros j hd evs Hhd Hlen.
  - cbn [copy_loop_mod]. rewrite Z.add_0_r, Z.mod_small by assumption.
    unfold ring_entries. cbn [seq map app]. rewrite Nat.add_0_r.
    now rewrite take_drop.
  - cbn [copy_loop_mod].
    replace (Z.of_nat j + 1) with (Z.of_nat (S j)) by lia.
    rewrite IH.
    + f_equal.
      * rewrite Z.add_mod_idemp_l by lia. f_equal. lia.
      * rewrite ring_entries_succ by assumption.
        unfold array_set.
        destruct (Z.leb_spec 0 (Z.of_nat j)) as [_|]; [|lia].
        rewrite Nat2Z.id.
        rewrite insert_take_drop by lia.
        set (x := array_get (io_events ring) hd).
        assert (Htk : length (take j evs) = j) by (rewrite length_take; lia).
        replace (take (S j) (take j evs ++ x :: drop (S j) evs))
          with (take j evs ++ [x]).
        2:{ rewrite take_app_ge by lia. rewrite Htk.
            replace (S j - j)%nat with 1%nat by lia. reflexivity. }
        replace (drop (S j + n) (take j evs ++ x :: drop (S j) evs))
          with (drop (j + S n) evs).
        2:{ rewrite drop_app_ge by lia. rewrite Htk.
            replace (S j + n - j)%nat with (S n) by lia.
            cbn [drop]. rewrite drop_drop. f_equal. lia. }
        now rewrite <- app_assoc.
    + apply Z.mod_pos_bound. lia.
    + unfold array_set. destruct (0 <=? Z.of_nat j);
        rewrite ?length_insert; lia.
Qed.

(** C2, as the code has it.  A fast-path drain on a valid ring with
    [available > 0], a non-negative [max] and a buffer with room for the
    batch returns [min available max], writes into the buffer the ring
    entries at [head], [head + 1], ... taken modulo the capacity, and leaves
    the rest of the buffer.  The ring it leaves differs from the one it found
    in the head alone, which is the old head advanced by that count modulo
    the capacity.  The loop with the conditional [%] computes the same head
    and buffer as the loop that reduces modulo the capacity on every step. *)
Theorem fast_path_drain
    (io_getevents : syscall) (ring : aio_ring) (min_nr max : Z)
    (evs : list io_event) (timeout : option timespec) :
  ring_valid ring ->
  0 < ring_available ring ->
  min_nr <= ring_available ring \/ zero_timeout timeout = true ->
  0 <= max ->
  (Z.to_nat (Z.min (ring_available ring) max) <= length evs)%nat ->
  exists evs' ring',
    artemis_io_getevents io_getevents ring min_nr max evs timeout
    = (Z.min (ring_available ring) max, evs', ring')
    /\ head ring'
       = (head ring + Z.min (ring_available ring) max) mod nr ring
    /\ ring'
       = mk_aio_ring (id ring) (nr ring)
           ((head ring + Z.min (ring_available ring) max) mod nr ring)
           (tail ring) (magic ring) (compat_features ring)
           (incompat_features ring) (header_length ring) (io_events ring)
    /\ take (Z.to_nat (Z.min (ring_available ring) max)) evs'
       = ring_entries ring (head ring)
           (Z.to_nat (Z.min (ring_available ring) max))
    /\ drop (Z.to_nat (Z.min (ring_available ring) max)) evs'
       = drop (Z.to_nat (Z.min (ring_available ring) max)) evs
    /\ copy_loop (Z.to_nat (Z.min (ring_available ring) max)) 0
         (if nr ring
             <=? wrap_unsigned (head ring + Z.min (ring_available ring) max)
          then 1 else 0)
         ring (nr ring) (head ring) evs
       = copy_loop_mod (Z.to_nat (Z.min (ring_available ring) max)) 0
           ring (nr ring) (head ring) evs
    /\ copy_loop_mod (Z.to_nat (Z.min (ring_available ring) max)) 0
         ring (nr ring) (head ring) evs
       = ((head ring + Z.min (ring_available ring) max) mod nr ring, evs').
Proof.
  intros Hv Hpos Hcond Hmax Hlen.
  pose proof (ring_available_bounds _ Hv) as Hav.
  pose proof (rv_nr _ Hv) as Hnr. pose proof (rv_head _ Hv) as Hhd.
  set (m := Z.min (ring_available ring) max) in *.
  assert (Hm : 0 <= m <= ring_available ring) by lia.
  assert (Hanr : wrap_int (if ring_available ring <? max
                           then ring_available ring else max) = m).
  { rewrite wrap_int_small.
    - unfold m. destruct (Z.ltb_spec (ring_available ring) max); lia.
    - unfold is_int. destruct (Z.ltb_spec (ring_available ring) max); lia. }
  assert (Hrefine :
    copy_loop (Z.to_nat m) 0
      (if nr ring <=? wrap_unsigned (head ring + m) then 1 else 0)
      ring (nr ring) (head ring) evs
    = copy_loop_mod (Z.to_nat m) 0 ring (nr ring) (head ring) evs).
  { apply copy_loop_conditional_mod; [lia|lia|].
    rewrite wrap_unsigned_small by lia.
    destruct (Z.leb_spec (nr ring) (head ring + m)); [now left|].
    right. split; [lia|]. rewrite Z2Nat.id; lia. }
  pose proof (copy_loop_mod_spec ring (proj1 Hnr) (Z.to_nat m) 0%nat
                (head ring) evs Hhd) as Hspec.
  specialize (Hspec Hlen).
  change (Z.of_nat 0) with 0 in Hspec.
  change (0 + Z.to_nat m)%nat with (Z.to_nat m) in Hspec.
  change (take 0 evs) with (@nil io_event) in Hspec.
  rewrite app_nil_l in Hspec.
  rewrite Z2Nat.id in Hspec by lia.
  exists (ring_entries ring (head ring) (Z.to_nat m) ++ drop (Z.to_nat m) evs).
  eexists.
  assert (Hre : length (ring_entries ring (head ring) (Z.to_nat m))
                = Z.to_nat m).
  { unfold ring_entries. now rewrite length_map, length_seq. }
  split; [|split; [|split; [|split; [|split; [|split]]]]].
  - unfold artemis_io_getevents, fast_path.
    rewrite (rv_usable _ Hv).
    assert (Hc : (min_nr <=? ring_available ring) || zero_timeout timeout
                 = true).
    { destruct Hcond as [Hle| ->].
      - apply Z.leb_le in Hle. now rewrite Hle.
      - apply orb_true_r. }
    rewrite Hc.
    destruct (Z.eqb_spec (ring_available ring) 0) as [|_]; [lia|].
    rewrite Hanr, Hrefine, Hspec. reflexivity.
  - reflexivity.
  - reflexivity.
  - rewrite take_app_length'; [reflexivity|now rewrite Hre].
  - rewrite drop_app_length'; [reflexivity|now rewrite Hre].
  - exact Hrefine.
  - exact Hspec.
Qed.

Lemma fast_path_drain_witness :
  exists evs' ring',
    artemis_io_getevents wait_one wrapped_ring 1 4 empty_buffer None
    = (2, evs', ring')
    /\ head ring' = 1
    /\ take 2 evs' = [mk_io_event 400 (-5); mk_io_event 100 4096].
Proof.
  destruct (fast_path_drain wait_one wrapped_ring 1 4 empty_buffer None)
    as (evs' & ring' & Hrun & Hhead & _ & Htake & _).
  - split; cbn; first [reflexivity | lia].
  - vm_compute. reflexivity.
  - left. vm_compute. discriminate.
  - lia.
  - vm_compute. lia.
  - exists evs', ring'. split; [exact Hrun|].
    split; [exact Hhead | exact Htake].
Defined.

(** C2 as worded fails for a negative [max], which [poll] hands over from its
    caller unchecked: on a valid ring holding two completions the fast path
    is taken, returns [-1], copies nothing and publishes the head it found,
    whereas the head advanced by [min available max] modulo the capacity is
    another slot. *)
Lemma fast_path_negative_max :
  ring_valid wrapped_ring
  /\ ring_available wrapped_ring = 2
  /\ fast_path wrapped_ring 1 (-1) empty_buffer None
     = Some (-1, empty_buffer, wrapped_ring)
  /\ artemis_io_getevents wait_one wrapped_ring 1 (-1) empty_buffer None
     = (-1, empty_buffer, wrapped_ring)
  /\ head wrapped_ring = 3
  /\ (head wrapped_ring + Z.min (ring_available wrapped_ring) (-1))
     mod nr wrapped_ring = 2.
Proof.
  split; [split; cbn; first [reflexivity | lia]|].
  repeat split; vm_compute; reflexivity.
Qed.

(** ** The descriptor pool *)

Lemma getIOCB_full control :
  queueSize control <= used control -> getIOCB control = (0, control).
Proof.
  intros Hfull. unfold getIOCB.
  destruct (Z.ltb_spec (used control) (queueSize control)); [lia|reflexivity].
Qed.

Lemma getIOCB_taken control :
  used control < queueSize control ->
  exists control',
    getIOCB control = (array_get (iocb control) (iocbGet control), control')
    /\ used control' = wrap_int (used control + 1)
    /\ queueSize control' = queueSize control
    /\ iocb control' = iocb control
    /\ iocbPut control' = iocbPut control
    /\ iocbGet control'
       = (if queueSize control <=? wrap_int (iocbGet control + 1)
          then 0 else wrap_int (iocbGet control + 1)).
Proof.
  intros Hlt. unfold getIOCB.
  destruct (Z.ltb_spec (used control) (queueSize control)); [|lia].
  eexists. split; [reflexivity|]. cbn. auto.
Qed.

Lemma getIOCB_nonnull control d control' :
  getIOCB control = (d, control') -> d <> 0 ->
  used control < queueSize control.
Proof.
  unfold getIOCB.
  destruct (Z.ltb_spec (used control) (queueSize control)); [auto|].
  intros [= <- _] Hd. contradiction.
Qed.

Lemma next_index_bounds size i :
  0 < size < 2 ^ 31 -> 0 <= i < size ->
  0 <= (if size <=? wrap_int (i + 1) then 0 else wrap_int (i + 1)) < size.
Proof.
  intros Hs Hi. rewrite wrap_int_small by (unfold is_int; lia).
  destruct (Z.leb_spec size (i + 1)); lia.
Qed.

Lemma array_get_nonnull (l : list Z) i :
  Forall (fun p => p <> 0) l -> 0 <= i < Z.of_nat (length l) ->
  array_get l i <> 0.
Proof.
  intros Hall Hi. unfold array_get.
  destruct (lookup_lt_is_Some_2 l (Z.to_nat i)) as [x Hx]; [lia|].
  rewrite (list_lookup_total_correct _ _ _ Hx).
  rewrite Forall_forall in Hall. apply Hall.
  apply list_elem_of_lookup. eauto.
Qed.

Lemma pool_wf_getIOCB control :
  pool_wf control -> pool_wf (snd (getIOCB control)).
Proof.
  intros Hwf. destruct (Z_lt_le_dec (used control) (queueSize control)) as [Hlt|Hge].
  - destruct (getIOCB_taken control Hlt) as (c' & -> & _ & Hq & Ha & Hp & Hg).
    destruct Hwf as [Hs Hl Hget Hput Hnn]. cbn [snd].
    split; rewrite ?Hq, ?Ha, ?Hp, ?Hg; auto using next_index_bounds.
  - now rewrite getIOCB_full.
Qed.

Lemma pool_wf_putIOCB control d :
  pool_wf control -> d <> 0 -> pool_wf (putIOCB control d).
Proof.
  intros [Hs Hl Hget Hput Hnn] Hd. split; cbn; auto using next_index_bounds.
  - unfold array_set. destruct (0 <=? iocbPut control);
      now rewrite ?length_insert.
  - unfold array_set. destruct (0 <=? iocbPut control); [|assumption].
    rewrite Forall_forall in *. intros x Hx.
    apply list_elem_of_lookup in Hx as [j Hj].
    destruct (decide (Z.to_nat (iocbPut control) = j)) as [<-|Hne].
    + apply list_lookup_insert_Some in Hj as [(_ & -> & _)|(? & _)];
        [assumption|contradiction].
    + rewrite list_lookup_insert_ne in Hj by assumption.
      apply Hnn. apply list_elem_of_lookup. eauto.
Qed.

Lemma remove_first_Some d held held' :
  remove_first d held = Some held' ->
  length held = S (length held')
  /\ d ∈ held
  /\ forall x, x ∈ held' -> x ∈ held.
Proof.
  revert held'. induction held as [|x held IH]; intros held'; cbn [remove_first].
  - discriminate.
  - destruct (Z.eqb_spec x d) as [->|Hne].
    + intros [= <-]. repeat split; [left|]. intros y Hy. now right.
    + destruct (remove_first d held) as [k|]; [|discriminate].
      intros [= <-]. destruct (IH k eq_refl) as (Hlen & Hin & Hsub).
      repeat split; [cbn; lia|now right|].
      intros y Hy. apply elem_of_cons in Hy as [->|Hy]; [left|right; auto].
Qed.

(** The counter equals the number of descriptors handed out and not given
    back, along every matched sequence. *)
Lemma matched_used_invariant ops :
  forall control held,
    pool_wf control ->
    used control = Z.of_nat (length held) ->
    used control <= queueSize control ->
    Forall (fun p => p <> 0) held ->
    matched ops control held = true ->
    forall k,
      0 <= used (run_pool (take k ops) control) <= queueSize control
      /\ queueSize (run_pool (take k ops) control) = queueSize control.
Proof.
  induction ops as [|op ops IH]; intros control held Hwf Hused Hle Hheld Hm k.
  - rewrite take_nil. cbn. lia.
  - destruct k as [|k]; [cbn; lia|].
    cbn [take run_pool foldl]. destruct op as [|d]; cbn [matched pool_step] in *.
    + destruct (Z_lt_le_dec (used control) (queueSize control)) as [Hlt|Hge].
      * destruct (getIOCB_taken control Hlt) as (c' & Hg & Hu & Hq & Ha & _).
        pose proof (pool_wf_getIOCB control Hwf) as Hwf'.
        rewrite Hg in Hm, Hwf' |- *. cbn [snd] in *.
        pose proof (wf_size _ Hwf) as Hs.
        assert (Hnn : array_get (iocb control) (iocbGet control) <> 0).
        { apply array_get_nonnull; [apply Hwf|].
          rewrite (wf_length _ Hwf). apply Hwf. }
        destruct (Z.eqb_spec (array_get (iocb control) (iocbGet control)) 0)
          as [|_]; [contradiction|].
        rewrite wrap_int_small in Hu by (unfold is_int; lia).
        rewrite <- Hq.
        apply (IH c' (array_get (iocb control) (iocbGet control) :: held)
                 Hwf'); [|lia| |exact Hm].
        -- cbn [length]. lia.
        -- constructor; assumption.
      * rewrite getIOCB_full in Hm |- * by assumption. cbn [snd].
        change (0 =? 0) with true in Hm. cbv iota in Hm.
        now apply (IH control held).
    + destruct (remove_first d held) as [held'|] eqn:Hrm; [|discriminate].
      destruct (remove_first_Some _ _ _ Hrm) as (Hlen & Hin & Hsub).
      assert (Hd : d <> 0).
      { rewrite Forall_forall in Hheld. now apply Hheld. }
      pose proof (wf_size _ Hwf) as Hs.
      assert (Hu : used (putIOCB control d) = used control - 1).
      { cbn. apply wrap_int_small. unfold is_int. lia. }
      change (queueSize control) with (queueSize (putIOCB control d)).
      apply (IH (putIOCB control d) held').
      * now apply pool_wf_putIOCB.
      * lia.
      * cbn [queueSize putIOCB] in *. lia.
      * rewrite Forall_forall in *. intros x Hx. apply Hheld. now apply Hsub.
      * exact Hm.
Qed.

(** C3, as the code has it.  Along every sequence of acquires and releases on
    a freshly built pool of capacity [N] in which each release gives back a
    descriptor that an earlier acquire handed out and that was not given back
    since, [used] stays between [0] and [N]; and an acquire at [used = N]
    returns null at once and leaves the pool as it is. *)
Theorem pool_used_bounds (ops : list pool_op) (control : io_control) :
  pool_wf control ->
  used control = 0 ->
  matched ops control [] = true ->
  (forall k, 0 <= used (run_pool (take k ops) control) <= queueSize control)
  /\ (forall c, used c = queueSize c -> getIOCB c = (0, c)).
Proof.
  intros Hwf Hused Hm. split.
  - intros k.
    apply (matched_used_invariant ops control [] Hwf); auto.
    + rewrite Hused. pose proof (wf_size _ Hwf). lia.
  - intros c Hc. apply getIOCB_full. lia.
Qed.

Lemma fresh_pool_wf : pool_wf fresh_pool.
Proof.
  split; cbn; try lia. repeat constructor; discriminate.
Qed.

Lemma pool_used_bounds_witness :
  0 <= used (run_pool [Acquire; Acquire; Acquire; Release 100; Release 200]
               fresh_pool) <= 2.
Proof.
  exact (proj1 (pool_used_bounds
                  [Acquire; Acquire; Acquire; Release 100; Release 200]
                  fresh_pool fresh_pool_wf eq_refl eq_refl) 5%nat).
Defined.

(** C3 as worded fails: [putIOCB] decrements without a check, so a release
    that no acquire preceded takes [used] of a fresh pool of capacity 2
    to [-1]. *)
Lemma release_without_acquire_goes_negative :
  pool_wf fresh_pool
  /\ used fresh_pool = 0
  /\ used (run_pool [Release 100] fresh_pool) = -1
  /\ ~ 0 <= used (run_pool [Release 100] fresh_pool).
Proof.
  split; [exact fresh_pool_wf|]. split; [reflexivity|].
  split; [reflexivity|]. vm_compute. intros H. now apply H.
Qed.

Lemma used_putIOCB_after_getIOCB control control' d d' :
  is_int (used control) ->
  getIOCB control = (d, control') ->
  d <> 0 ->
  used (putIOCB control' d') = used control.
Proof.
  intros Hint Hget Hd.
  pose proof (getIOCB_nonnull _ _ _ Hget Hd) as Hlt.
  destruct (getIOCB_taken control Hlt) as (c' & Hg & Hu & _).
  rewrite Hg in Hget. injection Hget as _ <-.
  cbn [putIOCB used]. rewrite Hu. now apply wrap_int_pred_succ.
Qed.

(** C8.  When [getIOCB] hands out a descriptor, one [putIOCB] of that
    descriptor brings [used] back to the value it had before the acquire;
    the capacity is the same throughout. *)
Theorem getIOCB_putIOCB_used (control control' : io_control) (d : Z) :
  is_int (used control) ->
  getIOCB control = (d, control') ->
  d <> 0 ->
  used (putIOCB control' d) = used control
  /\ queueSize (putIOCB control' d) = queueSize control.
Proof.
  intros Hint Hget Hd. split.
  - now apply (used_putIOCB_after_getIOCB control control' d d).
  - pose proof (getIOCB_nonnull _ _ _ Hget Hd) as Hlt.
    destruct (getIOCB_taken control Hlt) as (c' & Hg & _ & Hq & _).
    rewrite Hg in Hget. injection Hget as _ <-. exact Hq.
Qed.

Lemma getIOCB_putIOCB_used_witness :
  used (putIOCB (snd (getIOCB fresh_pool)) 100) = used fresh_pool.
Proof.
  apply (getIOCB_putIOCB_used fresh_pool (snd (getIOCB fresh_pool)) 100).
  - unfold is_int. cbn. lia.
  - reflexivity.
  - discriminate.
Defined.

(** ** Submission *)


Lemma exceptionMessage_errno strerror msg result :
  - 2 ^ 31 < result < 0 ->
  exceptionMessage strerror true msg (wrap_int (- result))
  = Some (String.append msg (strerror (- result))).
Proof.
  intros Hr. unfold exceptionMessage.
  rewrite wrap_int_small by (unfold is_int; lia).
  destruct (Z.ltb_spec (- result) 0); [lia|reflexivity].
Qed.

Lemma submit_rejected strerror result asprintf_ok w p :
  result < 0 ->
  submit strerror result asprintf_ok w p
  = (0,
     mk_world (putIOCB (control w) p) (ring w) (heap w)
       (calls w ++ release_handle (data (deref w p))
        ++ [ThrowNew IOException
              (exceptionMessage strerror asprintf_ok
                 "Error while submitting IO: " (wrap_int (- result)))])).
Proof.
  intros Hneg. unfold submit, release_handle.
  destruct (Z.ltb_spec result 0); [|lia].
  destruct (negb (data (deref w p) =? 0) && negb (data (deref w p) =? -1));
    unfold throwIOExceptionErrorNo, log, with_control; cbn;
    now rewrite <- ?app_assoc, ?app_nil_r.
Qed.



(** ** The continuous poll loop *)

Lemma blockedPoll_event_deliver strerror dumb useFdatasync i lastFile w :
  aio_fildes (deref w (obj (array_get (events (control w)) i))) <> dumb ->
  exists lastFile' sync,
    blockedPoll_event strerror dumb useFdatasync i lastFile w
    = (true, lastFile',
       mk_world
         (putIOCB (control w) (obj (array_get (events (control w)) i)))
         (ring w) (heap w)
         (calls w ++ sync
          ++ blockedPoll_dispatch strerror w
               (array_get (events (control w)) i)))
    /\ filter (fun c => is_fdatasync c = false) sync = [].
Proof.
  intros Hfd. unfold blockedPoll_event, blockedPoll_dispatch, error_delivery.
  set (e := array_get (events (control w)) i) in *.
  destruct (Z.eqb_spec (aio_fildes (deref w (obj e))) dumb) as [|_];
    [contradiction|].
  unfold deref in *. set (cb := heap w !!! obj e) in *.
  destruct (useFdatasync && negb (lastFile =? aio_fildes cb));
    unfold log, with_control; cbn [heap control calls ring];
    fold cb;
    destruct (wrap_int (res e) <? 0);
    destruct (data cb =? 0) eqn:Hd;
    cbn [negb heap control calls ring thisObject putIOCB];
    fold cb; rewrite ?Hd; cbn [negb];
    rewrite <- ?app_assoc;
    first [ exists (aio_fildes cb), [fdatasync (aio_fildes cb)];
            split; [reflexivity | reflexivity]
          | exists lastFile, [];
            split; [cbn [app]; rewrite ?app_nil_r; reflexivity | reflexivity] ].
Qed.

Lemma blockedPoll_dispatch_no_sync strerror w e :
  filter (fun c => is_fdatasync c = false) (blockedPoll_dispatch strerror w e)
  = blockedPoll_dispatch strerror w e.
Proof.
  unfold blockedPoll_dispatch, error_delivery.
  destruct (data (deref w (obj e)) =? 0); [reflexivity|].
  destruct (wrap_int (res e) <? 0); reflexivity.
Qed.

(** The rounds before the first sentinel: the loop runs one round for each of
    them, in order, and goes on with the rest of the batch. *)
Lemma blockedPoll_events_prefix strerror dumb useFdatasync :
  forall (m j : nat) lastFile w,
    (forall k, (j <= k < j + m)%nat ->
       aio_fildes (deref w (obj (events (control w) !!! k))) <> dumb) ->
    exists lastFile' w' cs,
      (forall n, (m <= n)%nat ->
         blockedPoll_events strerror dumb n useFdatasync (Z.of_nat j)
           lastFile w
         = blockedPoll_events strerror dumb (n - m) useFdatasync
             (Z.of_nat (j + m)) lastFile' w')
      /\ heap w' = heap w
      /\ ring w' = ring w
      /\ events (control w') = events (control w)
      /\ thisObject (control w') = thisObject (control w)
      /\ control w'
         = foldl putIOCB (control w)
             (map (fun k => obj (events (control w) !!! k)) (seq j m))
      /\ calls w' = calls w ++ cs
      /\ filter (fun c => is_fdatasync c = false) cs
         = flat_map
             (fun k => blockedPoll_dispatch strerror w
                         (events (control w) !!! k))
             (seq j m).
Proof.
  induction m as [|m IH]; intros j lastFile w Hns.
  - exists lastFile, w, []. rewrite Nat.add_0_r, app_nil_r.
    repeat split; try reflexivity.
    intros n _. now rewrite Nat.sub_0_r.
  - assert (Hj : aio_fildes
                   (deref w (obj (array_get (events (control w))
                                    (Z.of_nat j)))) <> dumb).
    { unfold array_get. rewrite Nat2Z.id. apply Hns. lia. }
    destruct (blockedPoll_event_deliver strerror dumb useFdatasync
                (Z.of_nat j) lastFile w Hj) as (lf1 & sync & Hround & Hsync).
    unfold array_get in Hround. rewrite Nat2Z.id in Hround.
    set (e := events (control w) !!! j) in *.
    set (w1 := mk_world (putIOCB (control w) (obj e)) (ring w) (heap w)
                 (calls w ++ sync ++ blockedPoll_dispatch strerror w e))
      in *.
    destruct (IH (S j) lf1 w1) as (lf' & w' & cs & Hrun & Hh & Hr & He & Ht
                                   & Hc & Hcalls & Hfilter).
    { intros k Hk. apply Hns. lia. }
    exists lf', w', (sync ++ blockedPoll_dispatch strerror w e ++ cs).
    split; [|split; [|split; [|split; [|split; [|split; [|split]]]]]].
    + intros n Hn. destruct n as [|n]; [lia|].
      cbn [blockedPoll_events]. rewrite Hround.
      replace (Z.of_nat j + 1) with (Z.of_nat (S j)) by lia.
      rewrite Hrun by lia.
      replace (S j + m)%nat with (j + S m)%nat by lia. reflexivity.
    + exact Hh.
    + exact Hr.
    + exact He.
    + exact Ht.
    + rewrite Hc. reflexivity.
    + rewrite Hcalls. unfold w1. cbn [calls].
      now rewrite <- !app_assoc.
    + rewrite !filter_app, Hsync, Hfilter, blockedPoll_dispatch_no_sync.
      cbn [seq flat_map app]. f_equal.
Qed.

Lemma blockedPoll_dispatch_counts strerror w e :
  data (deref w (obj e)) <> 0 ->
  blockedPoll_dispatch strerror w e
  = error_delivery strerror (data (deref w (obj e))) e
    ++ [CallVoidMethod_done (thisObject (control w)) (data (deref w (obj e)));
        DeleteGlobalRef (data (deref w (obj e)))]
  /\ count_calls (is_onError (data (deref w (obj e))))
       (blockedPoll_dispatch strerror w e)
     = (if wrap_int (res e) <? 0 then 1%nat else 0%nat)
  /\ count_calls (is_done (data (deref w (obj e))))
       (blockedPoll_dispatch strerror w e)
     = 1%nat.
Proof.
  intros Hh. unfold blockedPoll_dispatch, error_delivery, count_calls.
  destruct (Z.eqb_spec (data (deref w (obj e))) 0) as [|_]; [contradiction|].
  destruct (wrap_int (res e) <? 0); cbn; rewrite ?Z.eqb_refl; auto.
Qed.

Lemma submit_no_handle_call strerror result asprintf_ok w p :
  exists cs,
    calls (snd (submit strerror result asprintf_ok w p)) = calls w ++ cs
    /\ Forall (fun c => is_handle_call c = false) cs.
Proof.
  unfold submit. destruct (result <? 0); cbn [snd].
  - destruct (negb (data (deref w p) =? 0) && negb (data (deref w p) =? -1));
      cbn; rewrite <- ?app_assoc; eexists; split; try reflexivity;
      repeat constructor.
  - exists []. now rewrite app_nil_r.
Qed.

Lemma submitWrite_no_handle_call strerror result asprintf_ok newref theControl
    fileHandle position size buffer w :
  exists cs,
    calls (submitWrite strerror result asprintf_ok newref theControl
             fileHandle position size buffer w) = calls w ++ cs
    /\ Forall (fun c => is_handle_call c = false) cs.
Proof.
  unfold submitWrite.
  destruct (theControl =? 0);
    [eexists; split; [reflexivity|repeat constructor]|].
  destruct (getIOCB (control w)) as [p c].
  destruct (p =? 0); [eexists; split; [reflexivity|repeat constructor]|].
  match goal with
  | |- context [submit ?s ?r ?a ?w0 ?q] =>
      destruct (submit_no_handle_call s r a w0 q) as (cs & -> & Hcs)
  end.
  cbn [calls store_data with_heap log io_prep_pwrite io_prep with_control].
  rewrite <- app_assoc. eexists; split; [reflexivity|].
  constructor; [reflexivity|assumption].
Qed.

Lemma submitRead_no_handle_call strerror result asprintf_ok newref theControl
    fileHandle position size buffer w :
  exists cs,
    calls (submitRead strerror result asprintf_ok newref theControl
             fileHandle position size buffer w) = calls w ++ cs
    /\ Forall (fun c => is_handle_call c = false) cs.
Proof.
  unfold submitRead.
  destruct (theControl =? 0);
    [eexists; split; [reflexivity|repeat constructor]|].
  destruct (getIOCB (control w)) as [p c].
  destruct (p =? 0); [eexists; split; [reflexivity|repeat constructor]|].
  match goal with
  | |- context [submit ?s ?r ?a ?w0 ?q] =>
      destruct (submit_no_handle_call s r a w0 q) as (cs & -> & Hcs)
  end.
  cbn [calls store_data with_heap log io_prep_pread io_prep with_control].
  rewrite <- app_assoc. eexists; split; [reflexivity|].
  constructor; [reflexivity|assumption].
Qed.

(** C5, as the code has it.  In a batch of the continuous loop, for every
    event that comes before the first sentinel completion, the loop runs one
    round; apart from the data-sync calls, the calls of these rounds are, event
    by event and in order, the delivery to the handle in the event's
    descriptor: [onError] once when the result read as an [int] is negative
    and not otherwise, then the done notification once, then the release of
    the reference.  What happens to events that follow a sentinel in the same
    batch is not stated.  A submission, failed or not, calls neither
    [onError] nor the done notification. *)
Theorem blockedPoll_delivers_once
    (strerror : Z -> string) (dumb : Z) (useFdatasync : bool) (n m : nat)
    (lastFile : Z) (w : world) :
  (m <= n)%nat ->
  (forall k, (k < m)%nat ->
     aio_fildes (deref w (obj (events (control w) !!! k))) <> dumb) ->
  (exists lastFile' w' cs,
     blockedPoll_events strerror dumb n useFdatasync 0 lastFile w
     = blockedPoll_events strerror dumb (n - m) useFdatasync (Z.of_nat m)
         lastFile' w'
     /\ calls w' = calls w ++ cs
     /\ filter (fun c => is_fdatasync c = false) cs
        = flat_map
            (fun k => blockedPoll_dispatch strerror w
                        (events (control w) !!! k))
            (seq 0 m))
  /\ (forall e,
        data (deref w (obj e)) <> 0 ->
        blockedPoll_dispatch strerror w e
        = error_delivery strerror (data (deref w (obj e))) e
          ++ [CallVoidMethod_done (thisObject (control w))
                (data (deref w (obj e)));
              DeleteGlobalRef (data (deref w (obj e)))]
        /\ count_calls (is_onError (data (deref w (obj e))))
             (blockedPoll_dispatch strerror w e)
           = (if wrap_int (res e) <? 0 then 1%nat else 0%nat)
        /\ count_calls (is_done (data (deref w (obj e))))
             (blockedPoll_dispatch strerror w e)
           = 1%nat)
  /\ (forall result asprintf_ok newref theControl fileHandle position size
             buffer w0 w1,
        w1 = submitWrite strerror result asprintf_ok newref theControl
               fileHandle position size buffer w0
        \/ w1 = submitRead strerror result asprintf_ok newref theControl
                  fileHandle position size buffer w0 ->
        exists cs,
          calls w1 = calls w0 ++ cs
          /\ Forall (fun c => is_handle_call c = false) cs).
Proof.
  intros Hmn Hns. split; [|split].
  - destruct (blockedPoll_events_prefix strerror dumb useFdatasync m 0
                lastFile w) as (lf' & w' & cs & Hrun & _ & _ & _ & _ & _
                                & Hcalls & Hfilter).
    { intros k Hk. apply Hns. lia. }
    exists lf', w', cs. split; [|split; assumption].
    now apply Hrun.
  - intros e He. now apply blockedPoll_dispatch_counts.
  - intros result asprintf_ok newref theControl fileHandle position size
      buffer w0 w1 [-> | ->].
    + apply submitWrite_no_handle_call.
    + apply submitRead_no_handle_call.
Qed.

Lemma blockedPoll_delivers_once_witness :
  exists w' cs,
    blockedPoll_events sample_strerror 3 2 false 0 (-1) harvest_world
    = (true, w')
    /\ calls w' = cs
    /\ filter (fun c => is_fdatasync c = false) cs
       = [CallVoidMethod_onError 77 5 "Input/output error";
          CallVoidMethod_done 9 77; DeleteGlobalRef 77;
          CallVoidMethod_done 9 66; DeleteGlobalRef 66].
Proof.
  destruct (blockedPoll_delivers_once sample_strerror 3 false 2 2 (-1)
              harvest_world) as ((lf' & w' & cs & Hrun & Hcalls & Hf) & _).
  - lia.
  - intros k Hk. destruct k as [|[|k]]; [vm_compute; discriminate..|lia].
  - exists w', cs. split; [exact Hrun|]. split; [exact Hcalls|].
    rewrite Hf. vm_compute. reflexivity.
Defined.

(** C5 as worded fails: the wait hands over two completions, the sentinel's
    and then that of a write for handle 77; the loop leaves at the sentinel,
    and handle 77 gets no done notification. *)
Lemma shutdown_batch_drops_delivery :
  fst (fst (artemis_io_getevents wait_shutdown idle_ring 1 2 empty_buffer
              None)) = 2
  /\ obj (array_get
            (snd (fst (artemis_io_getevents wait_shutdown idle_ring 1 2
                         empty_buffer None))) 1) = 200
  /\ aio_fildes (deref busy_world 200) <> 3
  /\ data (deref busy_world 200) = 77
  /\ fst (blockedPoll sample_strerror 3 [shutdown_turn] true 1 false
            busy_world) = Returned
  /\ count_calls (is_done 77)
       (calls (snd (blockedPoll sample_strerror 3 [shutdown_turn] true 1
                      false busy_world))) = 0%nat.
Proof.
  repeat split; try (vm_compute; reflexivity).
  vm_compute. discriminate.
Qed.



(** The continuous loop takes [-EINTR] as a reason to wait again: no call is
    made and the loop goes on with the next answer of the kernel. *)
Lemma blockedPoll_loop_retries_EINTR strerror dumb k kernel asprintf_ok
    useFdatasync max w evs r :
  artemis_io_getevents (k_io_getevents k) (k_publish k (ring w)) 1 max
    (events (control w)) None = (- EINTR, evs, r) ->
  blockedPoll_loop strerror dumb (k :: kernel) asprintf_ok useFdatasync max w
  = blockedPoll_loop strerror dumb kernel asprintf_ok useFdatasync max
      (with_ring (with_control w (store_events (control w) evs)) r).
Proof.
  intros Hget. cbn [blockedPoll_loop]. rewrite Hget.
  now rewrite Z.eqb_refl.
Qed.

(** The bounded poll hands the result of the wait to its caller as it is. *)
Lemma poll_returns_wait_result strerror io_getevents theControl min max w :
  theControl <> 0 ->
  fst (poll strerror io_getevents theControl min max w)
  = fst (fst (artemis_io_getevents io_getevents (ring w) min max
                (events (control w)) None)).
Proof.
  intros Hc. unfold poll.
  destruct (Z.eqb_spec theControl 0); [contradiction|].
  now destruct (artemis_io_getevents _ _ _ _ _ _) as [[result evs] r].
Qed.

(** C7, at the input where the code departs from it.  A bounded poll that
    asks for one completion on an idle ring enters the wait; when a signal
    interrupts the wait, [poll] does not wait again: it returns [-EINTR] to
    its caller, with no call made and the pool untouched.  The continuous
    loop, given the same interrupted wait and nothing after it, is back at
    the wait. *)
Theorem poll_surfaces_EINTR :
  poll sample_strerror wait_interrupted 1 1 4 sample_world
  = (- EINTR, sample_world)
  /\ fst (poll sample_strerror wait_interrupted 1 1 4 sample_world) = -4
  /\ blockedPoll sample_strerror 3 [interrupted_turn] true 1 false
       sample_world
     = (Waiting, sample_world).
Proof.
  split; [|split]; vm_compute; reflexivity.
Qed.

(** ** The bounded poll *)

Lemma poll_event_effect strerror i w :
  poll_event strerror i w
  = mk_world
      (putIOCB (control w) (obj (array_get (events (control w)) i)))
      (ring w) (heap w)
      (calls w
       ++ poll_dispatch strerror w i (array_get (events (control w)) i)).
Proof.
  unfold poll_event, poll_dispatch, error_delivery.
  set (e := array_get (events (control w)) i).
  destruct (negb (data (deref w (obj e)) =? 0)
            && negb (data (deref w (obj e)) =? -1));
    destruct (wrap_int (res e) <? 0);
    unfold log, with_control; cbn [control ring heap calls];
    rewrite <- ?app_assoc, ?app_nil_r; reflexivity.
Qed.

Lemma poll_events_effect strerror :
  forall (n j : nat) w,
    poll_events strerror n (Z.of_nat j) w
    = mk_world
        (foldl putIOCB (control w)
           (map (fun k => obj (events (control w) !!! k)) (seq j n)))
        (ring w) (heap w)
        (calls w
         ++ flat_map
              (fun k => poll_dispatch strerror w (Z.of_nat k)
                          (events (control w) !!! k))
              (seq j n)).
Proof.
  induction n as [|n IH]; intros j w.
  - cbn. rewrite app_nil_r. now destruct w.
  - cbn [poll_events]. rewrite poll_event_effect.
    replace (Z.of_nat j + 1) with (Z.of_nat (S j)) by lia.
    rewrite IH. unfold array_get. rewrite Nat2Z.id.
    cbn [control ring heap calls events putIOCB seq map foldl flat_map].
    rewrite <- app_assoc. reflexivity.
Qed.





(** ** Aligned buffers *)

(** C10.  When [size] is positive and a multiple of [alignment] and
    [posix_memalign] succeeds with a block of at least [size] bytes,
    whatever these bytes were, [newAlignedBuffer] throws nothing and returns
    a buffer at the block's address, of capacity [size], whose [size] bytes
    are all zero. *)
Theorem newAlignedBuffer_zero_filled
    (strerror : Z -> string)
    (posix_memalign : Z -> Z -> Z * Z * list Byte.byte) (asprintf_ok : bool)
    (size alignment : Z) (w : world) (buffer : Z) (block : list Byte.byte) :
  0 < size < 2 ^ 31 ->
  Z.rem size alignment = 0 ->
  posix_memalign (size_t alignment) (size_t size) = (0, buffer, block) ->
  size <= Z.of_nat (length block) ->
  newAlignedBuffer strerror posix_memalign asprintf_ok size alignment w
  = (Some (mk_direct_buffer buffer size
             (replicate (Z.to_nat size) Byte.x00)), w)
  /\ Z.of_nat (length (replicate (Z.to_nat size) Byte.x00)) = size
  /\ Forall (fun b => b = Byte.x00) (replicate (Z.to_nat size) Byte.x00).
Proof.
  intros Hsize Hrem Halloc Hlen. split; [|split].
  - unfold newAlignedBuffer. rewrite Hrem. cbn [wrap_int].
    change (negb (wrap_int 0 =? 0)) with false. cbv iota.
    rewrite Halloc. cbn [Z.eqb negb].
    unfold size_t. rewrite (Z.mod_small size) by lia.
    unfold memset.
    replace (Z.to_nat size `min` length block)%nat with (Z.to_nat size)
      by lia.
    rewrite take_app_length'; [reflexivity|].
    now rewrite length_replicate.
  - rewrite length_replicate. lia.
  - apply Forall_replicate. reflexivity.
Qed.

Lemma newAlignedBuffer_zero_filled_witness :
  newAlignedBuffer sample_strerror stale_memalign true 8 4 sample_world
  = (Some (mk_direct_buffer 4096 8 (replicate 8 Byte.x00)), sample_world).
Proof.
  apply (newAlignedBuffer_zero_filled sample_strerror stale_memalign true 8 4
           sample_world 4096 (replicate 8 Byte.xff)).
  - lia.
  - reflexivity.
  - reflexivity.
  - cbn. lia.
Defined.

(** * Further properties of the code *)

(** ** The completion ring: what a drain leaves behind *)

Lemma copy_loop_mod_head ring ring_nr :
  0 < ring_nr ->
  forall n i hd evs,
    0 <= hd < ring_nr ->
    fst (copy_loop_mod n i ring ring_nr hd evs)
    = (hd + Z.of_nat n) mod ring_nr.
Proof.
  intros Hnr. induction n as [|n IH]; intros i hd evs Hhd.
  - cbn. now rewrite Z.add_0_r, Z.mod_small.
  - cbn [copy_loop_mod]. rewrite IH by (apply Z.mod_pos_bound; lia).
    rewrite Z.add_mod_idemp_l by lia. f_equal. lia.
Qed.

Lemma array_set_length {A} (l : list A) i x :
  length (array_set l i x) = length l.
Proof. unfold array_set. destruct (0 <=? i); now rewrite ?length_insert. Qed.

Lemma copy_loop_mod_length ring ring_nr :
  forall n i hd evs,
    length (snd (copy_loop_mod n i ring ring_nr hd evs)) = length evs.
Proof.
  induction n as [|n IH]; intros i hd evs; [reflexivity|].
  cbn [copy_loop_mod]. now rewrite IH, array_set_length.
Qed.

Lemma store_head_same ring : store_head ring (head ring) = ring.
Proof. now destruct ring. Qed.

(** Every return of the fast path, the empty ring included. *)
Lemma fast_path_count_head ring min_nr max evs timeout n evs' ring' :
  ring_valid ring ->
  0 <= max ->
  fast_path ring min_nr max evs timeout = Some (n, evs', ring') ->
  n = Z.min (ring_available ring) max
  /\ ring' = store_head ring ((head ring + n) mod nr ring)
  /\ length evs' = length evs.
Proof.
  intros Hv Hmax. unfold fast_path. rewrite (rv_usable _ Hv).
  pose proof (ring_available_bounds _ Hv) as Hav.
  pose proof (rv_nr _ Hv) as Hnr. pose proof (rv_head _ Hv) as Hhd.
  destruct ((min_nr <=? ring_available ring) || zero_timeout timeout);
    [|discriminate].
  destruct (Z.eqb_spec (ring_available ring) 0) as [H0|Hne].
  - intros [= <- <- <-]. rewrite H0. split; [lia|]. split; [|reflexivity].
    rewrite Z.add_0_r, Z.mod_small by assumption.
    symmetry. apply store_head_same.
  - set (m := Z.min (ring_available ring) max).
    assert (Hm : 0 <= m <= ring_available ring) by lia.
    assert (Hanr : wrap_int (if ring_available ring <? max
                             then ring_available ring else max) = m).
    { rewrite wrap_int_small.
      - unfold m. destruct (Z.ltb_spec (ring_available ring) max); lia.
      - unfold is_int. destruct (Z.ltb_spec (ring_available ring) max); lia. }
    rewrite Hanr.
    rewrite copy_loop_conditional_mod; [|lia|lia|].
    2:{ rewrite wrap_unsigned_small by lia.
        destruct (Z.leb_spec (nr ring) (head ring + m)); [now left|].
        right. split; [lia|]. rewrite Z2Nat.id; lia. }
    pose proof (copy_loop_mod_head ring (nr ring) (proj1 Hnr) (Z.to_nat m) 0
                  (head ring) evs Hhd) as Hfst.
    pose proof (copy_loop_mod_length ring (nr ring) (Z.to_nat m) 0
                  (head ring) evs) as Hlen.
    destruct (copy_loop_mod _ _ _ _ _ _) as [hd' es].
    cbn [fst snd] in Hfst, Hlen. rewrite Z2Nat.id in Hfst by lia.
    intros [= <- <- <-]. rewrite Hfst. auto.
Qed.

Lemma fast_path_ring_after
    (ring : aio_ring) (min_nr max : Z) (evs : list io_event)
    (timeout : option timespec) (n : Z) (evs' : list io_event)
    (ring' : aio_ring) :
  ring_valid ring ->
  0 <= max ->
  fast_path ring min_nr max evs timeout = Some (n, evs', ring') ->
  ring_valid ring'
  /\ tail ring' = tail ring
  /\ nr ring' = nr ring
  /\ io_events ring' = io_events ring
  /\ 0 <= n <= max
  /\ n <= ring_available ring
  /\ ring_available ring' = ring_available ring - n
  /\ length evs' = length evs.
Proof.
  intros Hv Hmax Hfp.
  destruct (fast_path_count_head _ _ _ _ _ _ _ _ Hv Hmax Hfp)
    as (Hn & -> & Hlen).
  pose proof (ring_available_bounds _ Hv) as Hav.
  pose proof (rv_nr _ Hv) as Hnr.
  assert (Hv' : ring_valid
                  (store_head ring ((head ring + n) mod nr ring))).
  { destruct Hv as [Hu ? ? ? ?]. split; cbn; auto.
    apply Z.mod_pos_bound. lia. }
  split; [exact Hv'|]. split; [reflexivity|]. split; [reflexivity|].
  split; [reflexivity|]. split; [lia|]. split; [lia|].
  split; [|exact Hlen].
  rewrite (ring_available_mod _ Hv'). cbn [tail head nr store_head].
  rewrite Zminus_mod_idemp_r.
  replace (tail ring - (head ring + n)) with (tail ring - head ring - n)
    by lia.
  rewrite <- Zminus_mod_idemp_l.
  rewrite <- (ring_available_mod _ Hv).
  apply Z.mod_small. lia.
Qed.

(** A drain by the fast path keeps the ring valid and never touches what the
    kernel owns: the tail, the capacity and the entries are as before; only
    the head moves, by the count modulo the capacity.  The count is
    [min available max], so it is neither negative nor above [max], and the
    ring holds that many completions less.  The caller's buffer keeps its
    length. *)
Theorem fast_path_keeps_ring_valid
    (ring : aio_ring) (min_nr max : Z) (evs : list io_event)
    (timeout : option timespec) (n : Z) (evs' : list io_event)
    (ring' : aio_ring) :
  ring_valid ring ->
  0 <= max ->
  fast_path ring min_nr max evs timeout = Some (n, evs', ring') ->
  ring_valid ring'
  /\ tail ring' = tail ring
  /\ nr ring' = nr ring
  /\ io_events ring' = io_events ring
  /\ n = Z.min (ring_available ring) max
  /\ head ring' = (head ring + n) mod nr ring
  /\ 0 <= n <= max
  /\ n <= ring_available ring
  /\ ring_available ring' = ring_available ring - n
  /\ length evs' = length evs.
Proof.
  intros Hv Hmax Hfp.
  destruct (fast_path_ring_after _ _ _ _ _ _ _ _ Hv Hmax Hfp)
    as (Hv' & Htail & Hnr & Hio & Hn & Hle & Hav & Hlen).
  destruct (fast_path_count_head _ _ _ _ _ _ _ _ Hv Hmax Hfp)
    as (Hmin & Hring & _).
  split; [exact Hv'|].
  split; [exact Htail|]. split; [exact Hnr|]. split; [exact Hio|].
  split; [exact Hmin|].
  split; [rewrite Hring; reflexivity|].
  split; [exact Hn|]. split; [exact Hle|]. split; [exact Hav|exact Hlen].
Qed.

Lemma wrapped_ring_valid : ring_valid wrapped_ring.
Proof. split; cbn; first [reflexivity | lia]. Qed.

Lemma fast_path_keeps_ring_valid_witness :
  ring_valid (snd (artemis_io_getevents wait_one wrapped_ring 1 1
                     empty_buffer None))
  /\ head (snd (artemis_io_getevents wait_one wrapped_ring 1 1 empty_buffer
                  None)) = 0
  /\ ring_available
       (snd (artemis_io_getevents wait_one wrapped_ring 1 1 empty_buffer
               None)) = 1.
Proof.
  destruct (fast_path_keeps_ring_valid wrapped_ring 1 1 empty_buffer None 1
              (snd (fst (artemis_io_getevents wait_one wrapped_ring 1 1
                           empty_buffer None)))
              (snd (artemis_io_getevents wait_one wrapped_ring 1 1
                      empty_buffer None)))
    as (Hv & _ & _ & _ & _ & Hhd & _ & _ & Hav & _).
  - exact wrapped_ring_valid.
  - lia.
  - reflexivity.
  - split; [exact Hv|]. split; [exact Hhd | exact Hav].
Defined.

Lemma fast_path_entries ring min_nr max evs timeout n evs' ring' :
  ring_valid ring ->
  0 <= max ->
  fast_path ring min_nr max evs timeout = Some (n, evs', ring') ->
  (Z.to_nat n <= length evs)%nat ->
  take (Z.to_nat n) evs' = ring_entries ring (head ring) (Z.to_nat n)
  /\ drop (Z.to_nat n) evs' = drop (Z.to_nat n) evs.
Proof.
  intros Hv Hmax Hfp Hroom.
  destruct (fast_path_count_head _ _ _ _ _ _ _ _ Hv Hmax Hfp) as (Hn & _ & _).
  pose proof (ring_available_bounds _ Hv) as Hav.
  pose proof (rv_nr _ Hv) as Hnr. pose proof (rv_head _ Hv) as Hhd.
  revert Hfp. unfold fast_path. rewrite (rv_usable _ Hv).
  destruct ((min_nr <=? ring_available ring) || zero_timeout timeout);
    [|discriminate].
  destruct (Z.eqb_spec (ring_available ring) 0) as [H0|Hne].
  - intros [= <- <- <-]. now cbn.
  - assert (Hm : 0 <= n <= ring_available ring) by lia.
    assert (Hanr : wrap_int (if ring_available ring <? max
                             then ring_available ring else max) = n).
    { rewrite wrap_int_small.
      - destruct (Z.ltb_spec (ring_available ring) max); lia.
      - unfold is_int. destruct (Z.ltb_spec (ring_available ring) max); lia. }
    rewrite Hanr.
    rewrite copy_loop_conditional_mod; [|lia|lia|].
    2:{ rewrite wrap_unsigned_small by lia.
        destruct (Z.leb_spec (nr ring) (head ring + n)); [now left|].
        right. split; [lia|]. rewrite Z2Nat.id; lia. }
    pose proof (copy_loop_mod_spec ring (proj1 Hnr) (Z.to_nat n) 0%nat
                  (head ring) evs Hhd Hroom) as Hspec.
    change (Z.of_nat 0) with 0 in Hspec.
    change (0 + Z.to_nat n)%nat with (Z.to_nat n) in Hspec.
    change (take 0 evs) with (@nil io_event) in Hspec.
    rewrite app_nil_l in Hspec. rewrite Hspec.
    intros [= <- _].
    assert (Hre : length (ring_entries ring (head ring) (Z.to_nat n))
                  = Z.to_nat n).
    { unfold ring_entries. now rewrite length_map, length_seq. }
    split.
    + rewrite take_app_length'; [reflexivity|now rewrite Hre].
    + rewrite drop_app_length'; [reflexivity|now rewrite Hre].
Qed.

Lemma map_seq_shift {A} (f : nat -> A) (a : nat) :
  forall b s,
    map f (seq (a + s) b) = map (fun k => f (a + k)%nat) (seq s b).
Proof.
  induction b as [|b IH]; intros s; [reflexivity|].
  cbn [seq map]. f_equal.
  replace (S (a + s)) with (a + S s)%nat by lia. apply IH.
Qed.

Lemma ring_entries_app ring hd a b :
  0 < nr ring ->
  ring_entries ring hd (a + b)
  = ring_entries ring hd a
    ++ ring_entries ring ((hd + Z.of_nat a) mod nr ring) b.
Proof.
  intros Hnr. unfold ring_entries. rewrite seq_app, map_app. f_equal.
  replace (0 + a)%nat with (a + 0)%nat by lia.
  rewrite map_seq_shift. apply map_ext. intros k.
  rewrite Z.add_mod_idemp_l by lia. do 2 f_equal. lia.
Qed.

(** Two drains by the fast path, one after the other with nothing published
    in between, hand over consecutive ring entries: what the first copied
    followed by what the second copied is the run of entries that starts at
    the first head, with no entry lost and none delivered twice; the head
    ends advanced by both counts. *)
Theorem successive_drains_in_order
    (ring ring1 ring2 : aio_ring) (min1 max1 min2 max2 n1 n2 : Z)
    (t1 t2 : option timespec) (evs evs0 evs1 evs2 : list io_event) :
  ring_valid ring ->
  0 <= max1 -> 0 <= max2 ->
  fast_path ring min1 max1 evs t1 = Some (n1, evs1, ring1) ->
  fast_path ring1 min2 max2 evs0 t2 = Some (n2, evs2, ring2) ->
  (Z.to_nat n1 <= length evs)%nat ->
  (Z.to_nat n2 <= length evs0)%nat ->
  take (Z.to_nat n1) evs1 ++ take (Z.to_nat n2) evs2
  = ring_entries ring (head ring) (Z.to_nat n1 + Z.to_nat n2)
  /\ head ring2 = (head ring + n1 + n2) mod nr ring
  /\ ring_available ring2 = ring_available ring - n1 - n2.
Proof.
  intros Hv Hm1 Hm2 Hf1 Hf2 Hr1 Hr2.
  destruct (fast_path_ring_after _ _ _ _ _ _ _ _ Hv Hm1 Hf1)
    as (Hv1 & _ & Hnr1 & Hio1 & Hn1 & _ & Hav1 & _).
  destruct (fast_path_ring_after _ _ _ _ _ _ _ _ Hv1 Hm2 Hf2)
    as (_ & _ & _ & _ & Hn2 & _ & Hav2 & _).
  destruct (fast_path_count_head _ _ _ _ _ _ _ _ Hv Hm1 Hf1) as (_ & Hh1 & _).
  destruct (fast_path_count_head _ _ _ _ _ _ _ _ Hv1 Hm2 Hf2) as (_ & Hh2 & _).
  destruct (fast_path_entries _ _ _ _ _ _ _ _ Hv Hm1 Hf1 Hr1) as (Ht1 & _).
  destruct (fast_path_entries _ _ _ _ _ _ _ _ Hv1 Hm2 Hf2 Hr2) as (Ht2 & _).
  pose proof (rv_nr _ Hv) as Hnr.
  assert (Hhead1 : head ring1 = (head ring + n1) mod nr ring)
    by (rewrite Hh1; reflexivity).
  split; [|split].
  - rewrite Ht1, Ht2, ring_entries_app by lia.
    f_equal. rewrite Z2Nat.id by lia. rewrite <- Hhead1.
    unfold ring_entries. now rewrite Hio1, Hnr1.
  - rewrite Hh2. cbn [head store_head]. rewrite Hhead1, Hnr1.
    rewrite Z.add_mod_idemp_l by lia. reflexivity.
  - lia.
Qed.

Lemma successive_drains_in_order_witness :
  take 1 (snd (fst (artemis_io_getevents wait_one wrapped_ring 0 1
                      empty_buffer None)))
  ++ take 1
       (snd (fst (artemis_io_getevents wait_one
                    (snd (artemis_io_getevents wait_one wrapped_ring 0 1
                            empty_buffer None))
                    0 1 empty_buffer None)))
  = [mk_io_event 400 (-5); mk_io_event 100 4096].
Proof.
  refine (proj1 (successive_drains_in_order wrapped_ring
            (snd (artemis_io_getevents wait_one wrapped_ring 0 1
                    empty_buffer None))
            (snd (artemis_io_getevents wait_one
                    (snd (artemis_io_getevents wait_one wrapped_ring 0 1
                            empty_buffer None))
                    0 1 empty_buffer None))
            0 1 0 1 1 1 None None empty_buffer empty_buffer _ _
            wrapped_ring_valid _ _ eq_refl eq_refl _ _)); cbn; lia.
Defined.

(** ** The descriptor pool: which descriptor is where *)

Lemma mod_add_cancel N g a b :
  0 < N -> 0 <= a < N -> 0 <= b < N ->
  (g + a) mod N = (g + b) mod N -> a = b.
Proof.
  intros HN Ha Hb Heq.
  pose proof (Z.div_mod (g + a) N ltac:(lia)) as H1.
  pose proof (Z.div_mod (g + b) N ltac:(lia)) as H2.
  rewrite Heq in H1.
  set (q := (g + a) / N - (g + b) / N).
  assert (Hq : a - b = N * q) by (unfold q; lia).
  destruct (Z_lt_le_dec q 1) as [Hlt|Hge].
  - destruct (Z_lt_le_dec (-1) q) as [Hgt|Hle].
    + assert (q = 0) by lia. subst q. lia.
    + assert (N * q <= N * (-1)) by (apply Z.mul_le_mono_nonneg_l; lia). lia.
  - assert (N * 1 <= N * q) by (apply Z.mul_le_mono_nonneg_l; lia). lia.
Qed.

Lemma next_index_mod size i :
  0 < size < 2 ^ 31 -> 0 <= i < size ->
  (if size <=? wrap_int (i + 1) then 0 else wrap_int (i + 1))
  = (i + 1) mod size.
Proof.
  intros Hs Hi. rewrite wrap_int_small by (unfold is_int; lia).
  destruct (Z.leb_spec size (i + 1)).
  - replace (i + 1) with size by lia. now rewrite Z.mod_same by lia.
  - now rewrite Z.mod_small by lia.
Qed.

Lemma remove_first_Permutation d held held' :
  remove_first d held = Some held' -> held ≡ₚ d :: held'.
Proof.
  revert held'. induction held as [|x held IH]; intros held'; cbn [remove_first].
  - discriminate.
  - destruct (Z.eqb_spec x d) as [->|Hne].
    + now intros [= <-].
    + destruct (remove_first d held) as [k|]; [|discriminate].
      intros [= <-]. rewrite (IH k eq_refl). apply Permutation_swap.
Qed.

Lemma lookup_map_list {A B} (f : A -> B) (l : list A) :
  forall i, map f l !! i = f <$> l !! i.
Proof.
  induction l as [|x l IH]; intros [|i]; cbn; auto.
Qed.

Lemma cyclic_indices_split (m g : nat) :
  map (fun k => Z.to_nat ((Z.of_nat g + Z.of_nat k) mod Z.of_nat (m + g)))
      (seq 0 (m + g))
  = seq g m ++ seq 0 g.
Proof.
  rewrite seq_app, map_app. cbn [Nat.add]. f_equal.
  - apply list_eq. intros i.
    rewrite lookup_map_list.
    destruct (decide (i < m)%nat) as [Hi|Hi].
    + rewrite !lookup_seq_lt by assumption. cbn. f_equal.
      rewrite Z.mod_small by lia. lia.
    + rewrite !lookup_seq_ge by lia. reflexivity.
  - apply list_eq. intros i.
    rewrite lookup_map_list.
    destruct (decide (i < g)%nat) as [Hi|Hi].
    + rewrite !lookup_seq_lt by assumption. cbn. f_equal.
      replace (Z.of_nat g + Z.of_nat (m + i))
        with (Z.of_nat i + 1 * Z.of_nat (m + g)) by lia.
      rewrite Z.mod_add by lia. rewrite Z.mod_small by lia. lia.
    + rewrite !lookup_seq_ge by lia. reflexivity.
Qed.

(** The indices [g], [g + 1], ... taken modulo [n], [n] of them, are the
    indices below [n] in another order. *)
Lemma cyclic_indices_Permutation (n g : nat) :
  (g < n)%nat ->
  map (fun k => Z.to_nat ((Z.of_nat g + Z.of_nat k) mod Z.of_nat n)) (seq 0 n)
  ≡ₚ seq 0 n.
Proof.
  intros Hg. replace n with ((n - g) + g)%nat by lia.
  rewrite cyclic_indices_split.
  replace (n - g + g)%nat with (g + (n - g))%nat by lia.
  rewrite (seq_app g (n - g) 0). cbn [Nat.add]. apply Permutation_app_comm.
Qed.

Lemma map_lookup_total_seq (arr : list Z) :
  map (fun j => arr !!! j) (seq 0 (length arr)) = arr.
Proof.
  apply list_eq. intros i. rewrite lookup_map_list.
  destruct (decide (i < length arr)%nat) as [Hi|Hi].
  - rewrite lookup_seq_lt by assumption. cbn.
    destruct (lookup_lt_is_Some_2 arr i Hi) as [x Hx].
    now rewrite (list_lookup_total_correct _ _ _ Hx), Hx.
  - rewrite lookup_seq_ge by lia. cbn. symmetry.
    apply lookup_ge_None. lia.
Qed.

Lemma full_window_Permutation (arr : list Z) (g : Z) :
  0 <= g < Z.of_nat (length arr) ->
  map (fun k => array_get arr ((g + Z.of_nat k) mod Z.of_nat (length arr)))
      (seq 0 (length arr))
  ≡ₚ arr.
Proof.
  intros Hg.
  assert (Heq :
    map (fun k => array_get arr ((g + Z.of_nat k) mod Z.of_nat (length arr)))
        (seq 0 (length arr))
    = map (fun j => arr !!! j)
        (map (fun k => Z.to_nat ((Z.of_nat (Z.to_nat g) + Z.of_nat k)
                                 mod Z.of_nat (length arr)))
           (seq 0 (length arr)))).
  { rewrite map_map. apply map_ext. intros k. unfold array_get.
    now rewrite Z2Nat.id by lia. }
  rewrite Heq. etransitivity.
  - apply Permutation_map. apply cyclic_indices_Permutation. lia.
  - now rewrite map_lookup_total_seq.
Qed.

Lemma available_slots_getIOCB control :
  pool_wf control ->
  0 <= used control < queueSize control ->
  available_slots control
  = fst (getIOCB control) :: available_slots (snd (getIOCB control)).
Proof.
  intros Hwf Hu.
  destruct (getIOCB_taken control (proj2 Hu))
    as (c' & Hg & Hu' & Hq & Ha & _ & Hget).
  rewrite Hg. cbn [fst snd].
  pose proof (wf_size _ Hwf) as Hs. pose proof (wf_get _ Hwf) as Hgt.
  rewrite next_index_mod in Hget by assumption.
  rewrite wrap_int_small in Hu' by (unfold is_int; lia).
  unfold available_slots. rewrite Hq, Ha, Hu', Hget.
  replace (Z.to_nat (queueSize control - used control))
    with (S (Z.to_nat (queueSize control - (used control + 1)))) by lia.
  cbn [seq map]. f_equal.
  - now rewrite Z.add_0_r, Z.mod_small.
  - rewrite <- seq_shift, map_map. apply map_ext. intros k.
    rewrite Z.add_mod_idemp_l by lia. do 2 f_equal. lia.
Qed.

Lemma pool_tracks_getIOCB init control held :
  pool_tracks init control held ->
  used control < queueSize control ->
  fst (getIOCB control) <> 0
  /\ pool_tracks init (snd (getIOCB control))
       (fst (getIOCB control) :: held).
Proof.
  intros [Hwf Hused Hb Hput Hperm Hnn] Hlt.
  pose proof (wf_size _ Hwf) as Hs. pose proof (wf_get _ Hwf) as Hgt.
  assert (Hu : 0 <= used control < queueSize control) by lia.
  pose proof (available_slots_getIOCB control Hwf Hu) as Hav.
  pose proof (pool_wf_getIOCB control Hwf) as Hwf'.
  destruct (getIOCB_taken control Hlt) as (c' & Hg & Hu' & Hq & Ha & Hp & Hget).
  rewrite Hg in *. cbn [fst snd] in *.
  rewrite next_index_mod in Hget by assumption.
  rewrite wrap_int_small in Hu' by (unfold is_int; lia).
  split.
  - apply array_get_nonnull; [apply Hwf|]. rewrite (wf_length _ Hwf). lia.
  - split; auto.
    + rewrite Hu'. cbn [length]. lia.
    + lia.
    + rewrite Hp, Hget, Hq, Hu', Hput.
      rewrite Z.add_mod_idemp_l by lia. f_equal. lia.
    + rewrite <- Hperm, Hav. symmetry. apply Permutation_middle.
Qed.

Lemma available_slots_putIOCB control d :
  pool_wf control ->
  0 < used control <= queueSize control ->
  iocbPut control
  = (iocbGet control + (queueSize control - used control))
    mod queueSize control ->
  available_slots (putIOCB control d) = available_slots control ++ [d].
Proof.
  intros Hwf Hu Hput.
  pose proof (wf_size _ Hwf) as Hs. pose proof (wf_get _ Hwf) as Hgt.
  pose proof (wf_put _ Hwf) as Hpt. pose proof (wf_length _ Hwf) as Hlen.
  unfold available_slots. cbn [putIOCB iocb iocbGet queueSize used].
  rewrite wrap_int_small by (unfold is_int; lia).
  set (len := Z.to_nat (queueSize control - used control)).
  replace (Z.to_nat (queueSize control - (used control - 1)))
    with (len + 1)%nat by lia.
  rewrite seq_app, map_app. cbn [Nat.add seq map]. f_equal.
  - apply map_ext_in. intros k Hk. apply in_seq in Hk.
    unfold array_get, array_set.
    destruct (Z.leb_spec 0 (iocbPut control)) as [_|]; [|lia].
    apply list_lookup_total_insert_ne. intros Heq.
    apply Z2Nat.inj in Heq;
      [| lia | apply Z.mod_pos_bound; lia].
    rewrite Hput in Heq.
    apply mod_add_cancel in Heq; lia.
  - f_equal.
    replace (Z.of_nat len) with (queueSize control - used control) by lia.
    rewrite <- Hput. unfold array_get, array_set.
    destruct (Z.leb_spec 0 (iocbPut control)) as [_|]; [|lia].
    apply list_lookup_total_insert_eq. lia.
Qed.

Lemma pool_tracks_putIOCB init control held d held' :
  pool_tracks init control held ->
  remove_first d held = Some held' ->
  pool_tracks init (putIOCB control d) held'.
Proof.
  intros [Hwf Hused Hb Hput Hperm Hnn] Hrm.
  pose proof (wf_size _ Hwf) as Hs. pose proof (wf_put _ Hwf) as Hpt.
  destruct (remove_first_Some _ _ _ Hrm) as (Hlen & Hin & _).
  pose proof (remove_first_Permutation _ _ _ Hrm) as Hp.
  assert (Hd : d <> 0).
  { rewrite Forall_forall in Hnn. apply Hnn. rewrite <- Hperm.
    apply elem_of_app. now right. }
  split.
  - now apply pool_wf_putIOCB.
  - cbn [used putIOCB]. rewrite wrap_int_small by (unfold is_int; lia). lia.
  - cbn [used putIOCB queueSize].
    rewrite wrap_int_small by (unfold is_int; lia). lia.
  - cbn [used putIOCB queueSize iocbPut iocbGet].
    rewrite next_index_mod by assumption.
    rewrite wrap_int_small by (unfold is_int; lia).
    rewrite Hput, Z.add_mod_idemp_l by lia. f_equal. lia.
  - rewrite available_slots_putIOCB by (assumption || lia).
    rewrite <- Hperm, Hp, <- app_assoc. reflexivity.
  - assumption.
Qed.

Lemma pool_tracks_run init ops :
  forall control held,
    pool_tracks init control held ->
    matched ops control held = true ->
    pool_tracks init (run_pool ops control) (handed_out ops control held).
Proof.
  induction ops as [|op ops IH]; intros control held Ht Hm; [exact Ht|].
  destruct op as [|d]; cbn [matched handed_out run_pool foldl pool_step] in *.
  - destruct (Z_lt_le_dec (used control) (queueSize control)) as [Hlt|Hge].
    + destruct (pool_tracks_getIOCB _ _ _ Ht Hlt) as (Hd & Ht').
      destruct (getIOCB control) as [p c']. cbn [fst snd] in *.
      destruct (Z.eqb_spec p 0); [contradiction|].
      now apply IH.
    + rewrite getIOCB_full in * by assumption. cbn [snd].
      change (0 =? 0) with true in *. cbv iota in *. now apply IH.
  - destruct (remove_first d held) as [held'|] eqn:Hrm; [|discriminate].
    apply IH; [|exact Hm]. now apply (pool_tracks_putIOCB init control held).
Qed.

Lemma available_slots_idle control :
  pool_wf control -> used control = 0 ->
  available_slots control ≡ₚ iocb control.
Proof.
  intros Hwf Hu. unfold available_slots. rewrite Hu, Z.sub_0_r.
  pose proof (wf_length _ Hwf) as Hlen. pose proof (wf_get _ Hwf) as Hg.
  rewrite <- Hlen, Nat2Z.id. apply full_window_Permutation. lia.
Qed.

(** Along every matched sequence on a pool that starts idle with pairwise
    distinct descriptors, no descriptor is lost or duplicated: the available
    slots together with the descriptors handed out are the descriptors the
    pool started with, each once, and [used] counts the ones handed out.
    Hence a descriptor that [getIOCB] returns is one of the pool's own and is
    not in flight at that moment; and once everything is given back the array
    holds the initial descriptors again, in some order. *)
Theorem pool_conserves_descriptors (ops : list pool_op) (control : io_control) :
  pool_wf control ->
  used control = 0 ->
  iocbPut control = iocbGet control ->
  NoDup (iocb control) ->
  matched ops control [] = true ->
  available_slots (run_pool ops control) ++ handed_out ops control []
  ≡ₚ iocb control
  /\ NoDup (available_slots (run_pool ops control)
            ++ handed_out ops control [])
  /\ used (run_pool ops control)
     = Z.of_nat (length (handed_out ops control []))
  /\ (forall d control',
        getIOCB (run_pool ops control) = (d, control') ->
        d <> 0 ->
        d ∈ iocb control /\ d ∉ handed_out ops control [])
  /\ (handed_out ops control [] = [] ->
      iocb (run_pool ops control) ≡ₚ iocb control).
Proof.
  intros Hwf Hu Hpg Hnd Hm.
  pose proof (wf_size _ Hwf) as Hs. pose proof (wf_get _ Hwf) as Hg.
  assert (Hinit : pool_tracks (iocb control) control []).
  { split; auto.
    - rewrite Hu. lia.
    - rewrite Hu, Z.sub_0_r, Hpg.
      replace (iocbGet control + queueSize control)
        with (iocbGet control + 1 * queueSize control) by lia.
      rewrite Z.mod_add by lia. now rewrite Z.mod_small.
    - rewrite app_nil_r. now apply available_slots_idle.
    - apply Hwf. }
  pose proof (pool_tracks_run _ ops _ _ Hinit Hm) as Ht.
  set (c' := run_pool ops control) in *.
  set (h := handed_out ops control []) in *.
  pose proof (pt_perm _ _ _ Ht) as Hperm.
  assert (Hnd' : NoDup (available_slots c' ++ h)) by now rewrite Hperm.
  split; [exact Hperm|]. split; [exact Hnd'|].
  split; [apply Ht|]. split.
  - intros d c'' Hget Hd.
    pose proof (getIOCB_nonnull _ _ _ Hget Hd) as Hlt.
    assert (Hu' : 0 <= used c' < queueSize c').
    { rewrite (pt_used _ _ _ Ht). rewrite (pt_used _ _ _ Ht) in Hlt. lia. }
    pose proof (available_slots_getIOCB c' (pt_wf _ _ _ Ht) Hu') as Hav.
    rewrite Hget in Hav. cbn [fst snd] in Hav. rewrite Hav in Hnd', Hperm.
    split.
    + rewrite <- Hperm. left.
    + cbn [app] in Hnd'. apply NoDup_cons in Hnd' as [Hnotin _].
      intros Hin. apply Hnotin. apply elem_of_app. now right.
  - intros Hh. rewrite Hh, app_nil_r in Hperm. rewrite <- Hperm.
    symmetry. apply available_slots_idle; [apply Ht|].
    rewrite (pt_used _ _ _ Ht), Hh. reflexivity.
Qed.

Lemma pool_conserves_descriptors_witness :
  available_slots
    (run_pool [Acquire; Acquire; Release 100; Acquire] fresh_pool)
  ++ handed_out [Acquire; Acquire; Release 100; Acquire] fresh_pool []
  ≡ₚ [100; 200].
Proof.
  refine (proj1 (pool_conserves_descriptors
                   [Acquire; Acquire; Release 100; Acquire] fresh_pool
                   fresh_pool_wf eq_refl eq_refl _ eq_refl)).
  apply NoDup_cons. split; [|apply NoDup_singleton].
  intros Hin. apply list_elem_of_singleton in Hin. discriminate.
Defined.

(** The pool recycles first in, first out: in every state that matched use
    reaches from an idle pool, [getIOCB] takes the first available slot and
    [putIOCB] appends after the last one, so a descriptor given back is handed
    out again only after all those that were available before it. *)
Theorem pool_is_fifo (ops : list pool_op) (control : io_control) (d : Z) :
  pool_wf control ->
  used control = 0 ->
  iocbPut control = iocbGet control ->
  matched ops control [] = true ->
  (used (run_pool ops control) < queueSize control ->
   available_slots (run_pool ops control)
   = fst (getIOCB (run_pool ops control))
     :: available_slots (snd (getIOCB (run_pool ops control))))
  /\ (0 < used (run_pool ops control) ->
      available_slots (putIOCB (run_pool ops control) d)
      = available_slots (run_pool ops control) ++ [d]).
Proof.
  intros Hwf Hu Hpg Hm.
  pose proof (wf_size _ Hwf) as Hs. pose proof (wf_get _ Hwf) as Hg.
  assert (Hinit : pool_tracks (iocb control) control []).
  { split; auto.
    - rewrite Hu. lia.
    - rewrite Hu, Z.sub_0_r, Hpg.
      replace (iocbGet control + queueSize control)
        with (iocbGet control + 1 * queueSize control) by lia.
      rewrite Z.mod_add by lia. now rewrite Z.mod_small.
    - rewrite app_nil_r. now apply available_slots_idle.
    - apply Hwf. }
  destruct (pool_tracks_run _ ops _ _ Hinit Hm) as [Hwf' Hu' Hb' Hp' _ _].
  assert (Hq : queueSize (run_pool ops control) = queueSize control).
  { pose proof (matched_used_invariant ops control [] Hwf) as Hinv.
    destruct (Hinv ltac:(rewrite Hu; reflexivity) ltac:(lia)
                ltac:(constructor) Hm (length ops)) as [_ Hq].
    now rewrite firstn_all in Hq. }
  split.
  - intros Hlt. apply available_slots_getIOCB; [assumption|lia].
  - intros Hpos. apply available_slots_putIOCB; [assumption|lia|assumption].
Qed.

Lemma pool_is_fifo_witness :
  available_slots (putIOCB (run_pool [Acquire] fresh_pool) 100)
  = available_slots (run_pool [Acquire] fresh_pool) ++ [100].
Proof.
  refine (proj2 (pool_is_fifo [Acquire] fresh_pool 100 fresh_pool_wf
                   eq_refl eq_refl eq_refl) _).
  vm_compute. reflexivity.
Defined.

(** ** Submission: a full pool *)

(** With every descriptor handed out, [submitWrite] and [submitRead] throw
    the "queue full" [IOException] and do nothing else: no reference is
    created for the callback, [io_submit] is not reached (its answer plays no
    part), and pool, ring and descriptors are as before. *)
Theorem submit_on_full_pool
    (strerror : Z -> string) (result : Z) (asprintf_ok : bool)
    (newref theControl fileHandle position size buffer : Z) (w : world) :
  theControl <> 0 ->
  queueSize (control w) <= used (control w) ->
  submitWrite strerror result asprintf_ok newref theControl fileHandle
    position size buffer w
  = mk_world (control w) (ring w) (heap w)
      (calls w
       ++ [ThrowNew IOException (Some "Not enough space in libaio queue"%string)])
  /\ submitRead strerror result asprintf_ok newref theControl fileHandle
       position size buffer w
     = mk_world (control w) (ring w) (heap w)
         (calls w
          ++ [ThrowNew IOException
                (Some "Not enough space in libaio queue"%string)]).
Proof.
  intros Hc Hfull. unfold submitWrite, submitRead.
  destruct (Z.eqb_spec theControl 0); [contradiction|].
  rewrite getIOCB_full by assumption. cbn. now destruct w.
Qed.

Lemma submit_on_full_pool_witness :
  calls (submitWrite sample_strerror 1 true 7 1 5 0 4096 4096000 busy_world)
  = [ThrowNew IOException (Some "Not enough space in libaio queue"%string)].
Proof.
  rewrite (proj1 (submit_on_full_pool sample_strerror 1 true 7 1 5 0 4096
                    4096000 busy_world ltac:(discriminate)
                    ltac:(cbn; lia))).
  reflexivity.
Defined.

(** ** From submission to delivery *)

Lemma submit_accepted strerror result asprintf_ok newref theControl
    fileHandle position size buffer w :
  theControl <> 0 ->
  fst (getIOCB (control w)) <> 0 ->
  0 <= result ->
  submitWrite strerror result asprintf_ok newref theControl fileHandle
    position size buffer w
  = mk_world (snd (getIOCB (control w))) (ring w)
      (<[fst (getIOCB (control w)) :=
           mk_iocb newref IO_CMD_PWRITE fileHandle buffer (size_t size)
             position]>
         (heap w))
      (calls w ++ [NewGlobalRef newref])
  /\ submitRead strerror result asprintf_ok newref theControl fileHandle
       position size buffer w
     = mk_world (snd (getIOCB (control w))) (ring w)
         (<[fst (getIOCB (control w)) :=
              mk_iocb newref IO_CMD_PREAD fileHandle buffer (size_t size)
                position]>
            (heap w))
         (calls w ++ [NewGlobalRef newref]).
Proof.
  intros Hc Hp Hres. unfold submitWrite, submitRead.
  destruct (Z.eqb_spec theControl 0); [contradiction|].
  destruct (getIOCB (control w)) as [p c]. cbn [fst snd] in *.
  destruct (Z.eqb_spec p 0); [contradiction|].
  unfold submit. destruct (Z.ltb_spec result 0); [lia|]. cbn [snd].
  unfold store_data, io_prep_pwrite, io_prep_pread, io_prep, log, with_heap,
    with_control, deref.
  cbn [control ring heap calls].
  rewrite !lookup_total_insert_eq. cbn.
  now rewrite !insert_insert_eq.
Qed.

Lemma poll_harvest strerror io_getevents theControl min max w n evs r :
  theControl <> 0 ->
  artemis_io_getevents io_getevents (ring w) min max (events (control w))
    None = (Z.of_nat n, evs, r) ->
  poll strerror io_getevents theControl min max w
  = (Z.of_nat n,
     mk_world
       (foldl putIOCB (store_events (control w) evs)
          (map (fun k => obj (evs !!! k)) (seq 0 n)))
       r (heap w)
       (calls w
        ++ flat_map
             (fun k => poll_dispatch strerror w (Z.of_nat k) (evs !!! k))
             (seq 0 n))).
Proof.
  intros Hc Hget. unfold poll.
  destruct (Z.eqb_spec theControl 0); [contradiction|].
  rewrite Hget, Nat2Z.id. f_equal.
  change 0 with (Z.of_nat 0). now rewrite poll_events_effect.
Qed.

Lemma used_foldl_putIOCB ds :
  forall c,
    is_int (used c) ->
    Z.of_nat (length ds) <= used c ->
    used (foldl putIOCB c ds) = used c - Z.of_nat (length ds)
    /\ queueSize (foldl putIOCB c ds) = queueSize c.
Proof.
  induction ds as [|d ds IH]; intros c Hi Hle.
  - cbn. split; [lia|reflexivity].
  - cbn [foldl length] in *.
    assert (Hu : used (putIOCB c d) = used c - 1).
    { cbn. apply wrap_int_small. unfold is_int in *. lia. }
    destruct (IH (putIOCB c d)) as [-> ->].
    + rewrite Hu. unfold is_int in *. lia.
    + rewrite Hu. lia.
    + rewrite Hu. cbn [queueSize putIOCB]. split; [lia|reflexivity].
Qed.

(** A write or read that the kernel accepted and whose completion a bounded
    poll harvests alone: the poll returns 1, [used] is back at its value
    before the submission, and the calls recorded from submission to the end
    of the poll are the creation of the reference for the callback, [onError]
    on it when the result is negative, the store of the reference at index 0
    of the caller's array and the deletion of the reference, in this order:
    the reference is created once, deleted once, and used in between only. *)
Theorem submitted_then_polled
    (strerror : Z -> string) (io_getevents : syscall) (result : Z)
    (asprintf_ok : bool) (newref theControl fileHandle position size buffer
     min max : Z) (w w1 : world) (evs : list io_event) (r : aio_ring)
    (e : io_event) :
  theControl <> 0 ->
  fst (getIOCB (control w)) <> 0 ->
  is_int (used (control w)) ->
  0 <= result ->
  newref <> 0 -> newref <> -1 ->
  w1 = submitWrite strerror result asprintf_ok newref theControl fileHandle
         position size buffer w
  \/ w1 = submitRead strerror result asprintf_ok newref theControl fileHandle
            position size buffer w ->
  artemis_io_getevents io_getevents (ring w1) min max (events (control w1))
    None = (1, evs, r) ->
  evs !!! 0%nat = e ->
  obj e = fst (getIOCB (control w)) ->
  fst (poll strerror io_getevents theControl min max w1) = 1
  /\ used (control (snd (poll strerror io_getevents theControl min max w1)))
     = used (control w)
  /\ calls (snd (poll strerror io_getevents theControl min max w1))
     = calls w
       ++ [NewGlobalRef newref]
       ++ error_delivery strerror newref e
       ++ [SetObjectArrayElement 0 newref; DeleteGlobalRef newref].
Proof.
  intros Hc Hp Hint Hres Hr0 Hr1 Hw1 Hget He Hobj.
  destruct (submit_accepted strerror result asprintf_ok newref theControl
              fileHandle position size buffer w Hc Hp Hres) as [HW HR].
  rewrite (poll_harvest strerror io_getevents theControl min max w1 1 evs r
             Hc Hget).
  cbn [fst snd control calls seq map flat_map foldl]. rewrite He, app_nil_r.
  assert (Hdata : data (deref w1 (obj e)) = newref).
  { unfold deref. rewrite Hobj.
    destruct Hw1 as [-> | ->]; rewrite ?HW, ?HR; cbn [heap];
      now rewrite lookup_total_insert_eq. }
  assert (Hctl : control w1 = snd (getIOCB (control w))).
  { destruct Hw1 as [-> | ->]; now rewrite ?HW, ?HR. }
  assert (Hcalls : calls w1 = calls w ++ [NewGlobalRef newref]).
  { destruct Hw1 as [-> | ->]; now rewrite ?HW, ?HR. }
  split; [reflexivity|]. split.
  - cbn [used putIOCB store_events]. rewrite Hctl.
    apply (used_putIOCB_after_getIOCB (control w) (snd (getIOCB (control w)))
             (fst (getIOCB (control w))) 0); auto.
    now destruct (getIOCB (control w)).
  - unfold poll_dispatch. rewrite Hdata, Hcalls.
    destruct (Z.eqb_spec newref 0); [contradiction|].
    destruct (Z.eqb_spec newref (-1)); [contradiction|].
    cbn [negb andb]. now rewrite <- !app_assoc.
Qed.

Lemma submitted_then_polled_witness :
  calls (snd (poll sample_strerror (wait_for (mk_io_event 100 (-5))) 1 1 1
                (submitWrite sample_strerror 1 true 7 1 5 0 4096 4096000
                   sample_world)))
  = [NewGlobalRef 7; CallVoidMethod_onError 7 5 "Input/output error";
     SetObjectArrayElement 0 7; DeleteGlobalRef 7].
Proof.
  refine (proj2 (proj2 (submitted_then_polled sample_strerror
            (wait_for (mk_io_event 100 (-5))) 1 true 7 1 5 0 4096 4096000
            1 1 sample_world _ _ idle_ring (mk_io_event 100 (-5))
            _ _ _ _ _ _ (or_introl eq_refl) eq_refl eq_refl eq_refl)));
    first [discriminate | lia | vm_compute; discriminate | idtac].
  unfold is_int. cbn. lia.
Defined.

(** ** The continuous loop: data syncs, failures of the wait *)

Lemma blockedPoll_event_round strerror dumb useFdatasync i lastFile w :
  aio_fildes (deref w (obj (array_get (events (control w)) i))) <> dumb ->
  blockedPoll_event strerror dumb useFdatasync i lastFile w
  = (true,
     (if useFdatasync
         && negb (lastFile
                  =? aio_fildes
                       (deref w (obj (array_get (events (control w)) i))))
      then aio_fildes (deref w (obj (array_get (events (control w)) i)))
      else lastFile),
     mk_world
       (putIOCB (control w) (obj (array_get (events (control w)) i)))
       (ring w) (heap w)
       (calls w
        ++ batch_calls strerror w useFdatasync lastFile
             [array_get (events (control w)) i])).
Proof.
  intros Hfd. unfold blockedPoll_event, batch_calls, blockedPoll_dispatch,
    error_delivery.
  set (e := array_get (events (control w)) i) in *.
  destruct (Z.eqb_spec (aio_fildes (deref w (obj e))) dumb) as [|_];
    [contradiction|].
  unfold deref in *. set (cb := heap w !!! obj e) in *.
  destruct (useFdatasync && negb (lastFile =? aio_fildes cb));
    unfold log, with_control; cbn [heap control calls ring];
    fold cb;
    destruct (wrap_int (res e) <? 0);
    destruct (data cb =? 0) eqn:Hd;
    cbn [negb heap control calls ring thisObject putIOCB];
    fold cb; rewrite ?Hd; cbn [negb app];
    rewrite <- ?app_assoc, ?app_nil_r; reflexivity.
Qed.

Lemma batch_calls_ext strerror w w' useFdatasync :
  heap w' = heap w ->
  thisObject (control w') = thisObject (control w) ->
  forall es lastFile,
    batch_calls strerror w' useFdatasync lastFile es
    = batch_calls strerror w useFdatasync lastFile es.
Proof.
  intros Hh Ht. induction es as [|e es IH]; intros lastFile; [reflexivity|].
  cbn [batch_calls]. unfold blockedPoll_dispatch, deref.
  rewrite Hh, Ht, !IH. reflexivity.
Qed.

(** The rounds of a sentinel-free stretch of a batch, with all their calls. *)
Lemma blockedPoll_events_stretch strerror dumb useFdatasync :
  forall (m j : nat) lastFile w,
    (forall k, (j <= k < j + m)%nat ->
       aio_fildes (deref w (obj (events (control w) !!! k))) <> dumb) ->
    exists lastFile' w',
      (forall n, (m <= n)%nat ->
         blockedPoll_events strerror dumb n useFdatasync (Z.of_nat j)
           lastFile w
         = blockedPoll_events strerror dumb (n - m) useFdatasync
             (Z.of_nat (j + m)) lastFile' w')
      /\ heap w' = heap w
      /\ ring w' = ring w
      /\ control w'
         = foldl putIOCB (control w)
             (map (fun k => obj (events (control w) !!! k)) (seq j m))
      /\ calls w'
         = calls w
           ++ batch_calls strerror w useFdatasync lastFile
                (map (fun k => events (control w) !!! k) (seq j m)).
Proof.
  induction m as [|m IH]; intros j lastFile w Hns.
  - exists lastFile, w. rewrite Nat.add_0_r. cbn. rewrite app_nil_r.
    repeat split; try reflexivity.
    intros n _. now rewrite Nat.sub_0_r.
  - assert (Hj : aio_fildes
                   (deref w (obj (array_get (events (control w))
                                    (Z.of_nat j)))) <> dumb).
    { unfold array_get. rewrite Nat2Z.id. apply Hns. lia. }
    pose proof (blockedPoll_event_round strerror dumb useFdatasync
                  (Z.of_nat j) lastFile w Hj) as Hround.
    unfold array_get in Hround. rewrite Nat2Z.id in Hround.
    set (e := events (control w) !!! j) in *.
    set (lf1 := if useFdatasync
                   && negb (lastFile =? aio_fildes (deref w (obj e)))
                then aio_fildes (deref w (obj e)) else lastFile) in *.
    set (w1 := mk_world (putIOCB (control w) (obj e)) (ring w) (heap w)
                 (calls w
                  ++ batch_calls strerror w useFdatasync lastFile [e]))
      in *.
    destruct (IH (S j) lf1 w1) as (lf' & w' & Hrun & Hh & Hr & Hc & Hcalls).
    { intros k Hk. apply Hns. lia. }
    exists lf', w'.
    split; [|split; [|split; [|split]]].
    + intros n Hn. destruct n as [|n]; [lia|].
      cbn [blockedPoll_events]. rewrite Hround.
      replace (Z.of_nat j + 1) with (Z.of_nat (S j)) by lia.
      rewrite Hrun by lia.
      replace (S j + m)%nat with (j + S m)%nat by lia. reflexivity.
    + exact Hh.
    + exact Hr.
    + rewrite Hc. reflexivity.
    + rewrite Hcalls. unfold w1 at 1. cbn [calls].
      rewrite (batch_calls_ext strerror w w1) by reflexivity.
      rewrite <- app_assoc. f_equal.
      cbn [seq map batch_calls]. fold e. subst lf1.
      destruct (useFdatasync
                && negb (lastFile =? aio_fildes (deref w (obj e))));
        cbn [app]; change (events (control w1)) with (events (control w));
        now rewrite ?app_nil_r, <- ?app_assoc.
Qed.

Lemma filter_fdatasync_dispatch strerror w e :
  List.filter is_fdatasync (blockedPoll_dispatch strerror w e) = [].
Proof.
  unfold blockedPoll_dispatch, error_delivery.
  destruct (data (deref w (obj e)) =? 0); [reflexivity|].
  destruct (wrap_int (res e) <? 0); reflexivity.
Qed.

Lemma filter_fdatasync_batch strerror w useFdatasync :
  forall es lastFile,
    List.filter is_fdatasync
      (batch_calls strerror w useFdatasync lastFile es)
    = if useFdatasync
      then sync_calls lastFile (map (fun e => aio_fildes (deref w (obj e))) es)
      else [].
Proof.
  induction es as [|e es IH]; intros lastFile.
  - now destruct useFdatasync.
  - cbn [batch_calls map sync_calls]. destruct useFdatasync; cbn [andb].
    + destruct (lastFile =? aio_fildes (deref w (obj e))); cbn [negb].
      * now rewrite List.filter_app, filter_fdatasync_dispatch, IH.
      * cbn [List.filter is_fdatasync].
        now rewrite List.filter_app, filter_fdatasync_dispatch, IH.
    + now rewrite List.filter_app, filter_fdatasync_dispatch, IH.
Qed.

Lemma sync_calls_same fd :
  forall fds, Forall (fun x => x = fd) fds -> sync_calls fd fds = [].
Proof.
  induction fds as [|x fds IH]; intros Hall; [reflexivity|].
  apply Forall_cons in Hall as [-> Hall]. cbn [sync_calls].
  rewrite Z.eqb_refl. now apply IH.
Qed.

(** The data syncs of a batch without sentinel.  With [useFdatasync] the
    loop calls [fdatasync] once wherever the target descriptor of an event
    differs from the one of the event before it (from [-1] at the start of
    the batch), on that descriptor; without it, never.  So a batch whose
    events all target one descriptor [fd], not [-1], costs one call. *)
Theorem blockedPoll_syncs_on_change
    (strerror : Z -> string) (dumb : Z) (useFdatasync : bool) (n : nat)
    (w : world) :
  (forall k, (k < n)%nat ->
     aio_fildes (deref w (obj (events (control w) !!! k))) <> dumb) ->
  exists w',
    blockedPoll_events strerror dumb n useFdatasync 0 (-1) w = (true, w')
    /\ exists cs,
         calls w' = calls w ++ cs
         /\ List.filter is_fdatasync cs
            = (if useFdatasync
               then sync_calls (-1)
                      (map (fun k => aio_fildes
                                       (deref w
                                          (obj (events (control w) !!! k))))
                         (seq 0 n))
               else [])
         /\ forall fd,
              useFdatasync = true -> (0 < n)%nat -> fd <> -1 ->
              (forall k, (k < n)%nat ->
                 aio_fildes (deref w (obj (events (control w) !!! k))) = fd) ->
              List.filter is_fdatasync cs = [fdatasync fd].
Proof.
  intros Hns.
  destruct (blockedPoll_events_stretch strerror dumb useFdatasync n 0 (-1) w)
    as (lf' & w' & Hrun & _ & _ & _ & Hcalls).
  { intros k Hk. apply Hns. lia. }
  exists w'. split.
  - change 0 with (Z.of_nat 0). rewrite (Hrun n) by lia.
    now rewrite Nat.sub_diag.
  - eexists. split; [exact Hcalls|].
    rewrite filter_fdatasync_batch, map_map. split; [reflexivity|].
    intros fd -> Hn Hfd Hall.
    destruct n as [|n]; [lia|]. cbn [seq map sync_calls].
    rewrite (Hall 0%nat) by lia.
    destruct (Z.eqb_spec (-1) fd) as [|_]; [congruence|].
    f_equal. apply sync_calls_same. apply Forall_forall. intros x Hx.
    apply list_elem_of_In, in_map_iff in Hx as (k & <- & Hk).
    apply in_seq in Hk. apply Hall. lia.
Qed.

Lemma blockedPoll_syncs_on_change_witness :
  exists w',
    blockedPoll_events sample_strerror 3 2 true 0 (-1) harvest_world
    = (true, w')
    /\ List.filter is_fdatasync (calls w') = [fdatasync 5].
Proof.
  destruct (blockedPoll_syncs_on_change sample_strerror 3 true 2
              harvest_world) as (w' & Hrun & cs & Hcalls & _ & Hone).
  - intros k Hk. destruct k as [|[|k]]; [vm_compute; discriminate..|lia].
  - exists w'. split; [exact Hrun|]. rewrite Hcalls. cbn [app].
    apply (Hone 5); [reflexivity|lia|discriminate|].
    intros k Hk. destruct k as [|[|k]]; [reflexivity..|lia].
Defined.

(** A write or read that the kernel accepted, on a descriptor other than the
    scratch one, and whose completion the continuous loop harvests alone: the
    loop stays in its wait afterwards, [used] is back at its value before the
    submission, and the calls recorded from submission on are the creation of
    the reference for the callback, the data sync if asked for, [onError] on
    the reference when the result is negative, the done notification and the
    deletion of the reference, in this order. *)
Theorem submitted_then_delivered
    (strerror : Z -> string) (dumb : Z) (k : kernel_turn) (result : Z)
    (asprintf_ok useFdatasync : bool)
    (newref theControl fileHandle position size buffer max : Z)
    (w w1 : world) (evs : list io_event) (r : aio_ring) (e : io_event) :
  theControl <> 0 ->
  fst (getIOCB (control w)) <> 0 ->
  is_int (used (control w)) ->
  0 <= result ->
  newref <> 0 ->
  fileHandle <> dumb ->
  w1 = submitWrite strerror result asprintf_ok newref theControl fileHandle
         position size buffer w
  \/ w1 = submitRead strerror result asprintf_ok newref theControl fileHandle
            position size buffer w ->
  artemis_io_getevents (k_io_getevents k) (k_publish k (ring w1)) 1 max
    (events (control w1)) None = (1, evs, r) ->
  evs !!! 0%nat = e ->
  obj e = fst (getIOCB (control w)) ->
  exists w2,
    blockedPoll_loop strerror dumb [k] asprintf_ok useFdatasync max w1
    = (Waiting, w2)
    /\ used (control w2) = used (control w)
    /\ calls w2
       = calls w
         ++ [NewGlobalRef newref]
         ++ (if useFdatasync && negb (-1 =? fileHandle)
             then [fdatasync fileHandle] else [])
         ++ error_delivery strerror newref e
         ++ [CallVoidMethod_done (thisObject (control w)) newref;
             DeleteGlobalRef newref].
Proof.
  intros Hc Hp Hint Hres Hr0 Hfd Hw1 Hget He Hobj.
  destruct (submit_accepted strerror result asprintf_ok newref theControl
              fileHandle position size buffer w Hc Hp Hres) as [HW HR].
  assert (Hcb : data (deref w1 (obj e)) = newref
                /\ aio_fildes (deref w1 (obj e)) = fileHandle).
  { unfold deref. rewrite Hobj.
    destruct Hw1 as [-> | ->]; rewrite ?HW, ?HR; cbn [heap];
      now rewrite lookup_total_insert_eq. }
  destruct Hcb as [Hdata Hfildes].
  assert (Hctl : control w1 = snd (getIOCB (control w))).
  { destruct Hw1 as [-> | ->]; now rewrite ?HW, ?HR. }
  assert (Hcalls : calls w1 = calls w ++ [NewGlobalRef newref]).
  { destruct Hw1 as [-> | ->]; now rewrite ?HW, ?HR. }
  assert (Hthis : thisObject (control w1) = thisObject (control w)).
  { rewrite Hctl. unfold getIOCB.
    destruct (used (control w) <? queueSize (control w)); reflexivity. }
  set (w1' := with_ring (with_control w1 (store_events (control w1) evs)) r).
  assert (Hround :
    aio_fildes (deref w1' (obj (array_get (events (control w1')) 0)))
    <> dumb).
  { unfold array_get. change (events (control w1')) with evs.
    change (Z.to_nat 0) with 0%nat. rewrite He.
    change (deref w1' (obj e)) with (deref w1 (obj e)).
    now rewrite Hfildes. }
  pose proof (blockedPoll_event_round strerror dumb useFdatasync 0 (-1) w1'
                Hround) as Hev.
  eexists. split; [|split].
  - cbn [blockedPoll_loop]. rewrite Hget. fold w1'.
    change (1 =? - EINTR) with false. change (1 <? 0) with false. cbv iota.
    change (Z.to_nat 1) with 1%nat. cbn [blockedPoll_events].
    rewrite Hev. reflexivity.
  - cbn [control used putIOCB store_events with_ring with_control w1'].
    rewrite Hctl.
    apply (used_putIOCB_after_getIOCB (control w) (snd (getIOCB (control w)))
             (fst (getIOCB (control w))) 0); auto.
    now destruct (getIOCB (control w)).
  - cbn [calls batch_calls]. unfold array_get, blockedPoll_dispatch.
    change (events (control w1')) with evs.
    change (Z.to_nat 0) with 0%nat. rewrite He.
    change (deref w1' (obj e)) with (deref w1 (obj e)).
    change (calls w1') with (calls w1).
    change (thisObject (control w1')) with (thisObject (control w1)).
    rewrite Hdata, Hfildes, Hcalls, Hthis.
    destruct (Z.eqb_spec newref 0); [contradiction|].
    destruct (useFdatasync && negb (-1 =? fileHandle));
      cbn [app]; now rewrite ?app_nil_r, <- ?app_assoc.
Qed.

Lemma submitted_then_delivered_witness :
  exists w2,
    blockedPoll_loop sample_strerror 3
      [mk_kernel_turn (fun r => r) (wait_for (mk_io_event 100 4096))]
      true true 2
      (submitWrite sample_strerror 1 true 7 1 5 0 4096 4096000 sample_world)
    = (Waiting, w2)
    /\ calls w2
       = [NewGlobalRef 7; fdatasync 5; CallVoidMethod_done 9 7;
          DeleteGlobalRef 7].
Proof.
  destruct (submitted_then_delivered sample_strerror 3
              (mk_kernel_turn (fun r => r) (wait_for (mk_io_event 100 4096)))
              1 true true 7 1 5 0 4096 4096000 2 sample_world
              (submitWrite sample_strerror 1 true 7 1 5 0 4096 4096000
                 sample_world)
              (snd (fst (wait_for (mk_io_event 100 4096) idle_ring 1 2
                           empty_buffer None)))
              idle_ring (mk_io_event 100 4096))
    as (w2 & Hrun & _ & Hcalls).
  - discriminate.
  - vm_compute. discriminate.
  - unfold is_int. cbn. lia.
  - lia.
  - discriminate.
  - discriminate.
  - left. reflexivity.
  - reflexivity.
  - reflexivity.
  - reflexivity.
  - exists w2. split; [exact Hrun | exact Hcalls].
Defined.

Lemma store_back_same w :
  with_ring (with_control w (store_events (control w) (events (control w))))
    (ring w) = w.
Proof. destruct w as [[] ? ? ?]. reflexivity. Qed.

(** Interrupted waits are absorbed.  Whatever number of turns end with
    [-EINTR], buffer and ring left as they were, the loop makes no call,
    throws nothing and touches nothing for them: it goes on exactly as if
    they had not happened, and with nothing after them it is back at the
    wait in the state it started from. *)
Theorem blockedPoll_absorbs_interrupts
    (strerror : Z -> string) (dumb : Z) (interrupted rest : list kernel_turn)
    (asprintf_ok useFdatasync : bool) (max : Z) (w : world) :
  Forall
    (fun k =>
       artemis_io_getevents (k_io_getevents k) (k_publish k (ring w)) 1 max
         (events (control w)) None
       = (- EINTR, events (control w), ring w))
    interrupted ->
  blockedPoll_loop strerror dumb (interrupted ++ rest) asprintf_ok
    useFdatasync max w
  = blockedPoll_loop strerror dumb rest asprintf_ok useFdatasync max w
  /\ blockedPoll_loop strerror dumb interrupted asprintf_ok useFdatasync
       max w
     = (Waiting, w).
Proof.
  intros Hall.
  assert (Hgen : forall rest',
    blockedPoll_loop strerror dumb (interrupted ++ rest') asprintf_ok
      useFdatasync max w
    = blockedPoll_loop strerror dumb rest' asprintf_ok useFdatasync max w).
  { intros rest'. induction Hall as [|k ks Hk _ IH]; [reflexivity|].
    cbn [app]. rewrite blockedPoll_loop_retries_EINTR with (1 := Hk).
    now rewrite store_back_same. }
  split; [apply Hgen|].
  rewrite <- (app_nil_r interrupted). now rewrite Hgen.
Qed.

Lemma blockedPoll_absorbs_interrupts_witness :
  blockedPoll_loop sample_strerror 3
    [interrupted_turn; interrupted_turn; interrupted_turn] true false 2
    sample_world
  = (Waiting, sample_world).
Proof.
  apply (blockedPoll_absorbs_interrupts sample_strerror 3
           [interrupted_turn; interrupted_turn; interrupted_turn] []
           true false 2 sample_world).
  repeat constructor.
Defined.

(** A wait that fails for another reason than a signal ends the loop: for a
    negative result other than [-EINTR] the loop throws one [IOException]
    that carries the system's message for the error, makes no other call,
    leaves the pool as it is and returns, whatever the kernel would have
    answered afterwards. *)
Theorem blockedPoll_wait_failure
    (strerror : Z -> string) (dumb : Z) (k : kernel_turn)
    (kernel : list kernel_turn) (useFdatasync : bool) (max : Z)
    (w : world) (result : Z) (evs : list io_event) (r : aio_ring) :
  artemis_io_getevents (k_io_getevents k) (k_publish k (ring w)) 1 max
    (events (control w)) None = (result, evs, r) ->
  - 2 ^ 31 < result < 0 ->
  result <> - EINTR ->
  blockedPoll_loop strerror dumb (k :: kernel) true useFdatasync max w
  = (Returned,
     mk_world (store_events (control w) evs) r (heap w)
       (calls w
        ++ [ThrowNew IOException
              (Some (String.append "Error while calling io_getevents IO: "
                       (strerror (- result))))])).
Proof.
  intros Hget Hres Hne. cbn [blockedPoll_loop]. rewrite Hget.
  destruct (Z.eqb_spec result (- EINTR)); [contradiction|].
  destruct (Z.ltb_spec result 0); [|lia].
  unfold throwIOExceptionErrorNo, log. cbn [control ring heap calls
    with_ring with_control].
  now rewrite exceptionMessage_errno.
Qed.

Lemma blockedPoll_wait_failure_witness :
  blockedPoll_loop sample_strerror 3
    [mk_kernel_turn (fun r => r) (fun r _ _ evs _ => (-9, evs, r));
     shutdown_turn]
    true false 2 sample_world
  = (Returned,
     mk_world fresh_pool idle_ring sample_heap
       [ThrowNew IOException
          (Some "Error while calling io_getevents IO: Bad file descriptor"%string)]).
Proof.
  apply (blockedPoll_wait_failure sample_strerror 3
           (mk_kernel_turn (fun r => r) (fun r _ _ evs _ => (-9, evs, r)))
           [shutdown_turn] false 2 sample_world (-9)
           (events (control sample_world)) idle_ring).
  - reflexivity.
  - lia.
  - discriminate.
Defined.

(** ** The bounded poll: pool accounting *)

(** A bounded poll gives back to the pool as many descriptors as it returns
    events: when the wait hands over [n] events and at least [n] descriptors
    are handed out, [used] goes down by exactly [n], the capacity stays, and
    the ring the poll leaves is the one the wait left. *)
Theorem poll_releases_what_it_returns
    (strerror : Z -> string) (io_getevents : syscall)
    (theControl min max : Z) (w : world) (n : nat) (evs : list io_event)
    (r : aio_ring) :
  theControl <> 0 ->
  artemis_io_getevents io_getevents (ring w) min max (events (control w))
    None = (Z.of_nat n, evs, r) ->
  is_int (used (control w)) ->
  Z.of_nat n <= used (control w) ->
  fst (poll strerror io_getevents theControl min max w) = Z.of_nat n
  /\ used (control (snd (poll strerror io_getevents theControl min max w)))
     = used (control w) - Z.of_nat n
  /\ queueSize
       (control (snd (poll strerror io_getevents theControl min max w)))
     = queueSize (control w)
  /\ ring (snd (poll strerror io_getevents theControl min max w)) = r
  /\ heap (snd (poll strerror io_getevents theControl min max w)) = heap w.
Proof.
  intros Hc Hget Hint Hle.
  rewrite (poll_harvest strerror io_getevents theControl min max w n evs r
             Hc Hget).
  cbn [fst snd control ring heap].
  destruct (used_foldl_putIOCB
              (map (fun k => obj (evs !!! k)) (seq 0 n))
              (store_events (control w) evs)) as [Hu Hq].
  - exact Hint.
  - rewrite length_map, length_seq. exact Hle.
  - rewrite length_map, length_seq in Hu. auto.
Qed.

Lemma poll_releases_what_it_returns_witness :
  used (control (snd (poll sample_strerror wait_shutdown 1 2 2 busy_world)))
  = 0.
Proof.
  refine (proj1 (proj2 (poll_releases_what_it_returns sample_strerror
            wait_shutdown 1 2 2 busy_world 2
            (snd (fst (wait_shutdown idle_ring 2 2 empty_buffer None)))
            idle_ring _ eq_refl _ _))).
  - discriminate.
  - unfold is_int. cbn. lia.
  - cbn. lia.
Defined.

(** ** Error messages *)

(** [exceptionMessage] does not care about the sign of the error number:
    callers may pass [errno] or a negated result, the text is the message
    followed by the system's description of the absolute value. *)
Theorem exceptionMessage_ignores_sign
    (strerror : Z -> string) (asprintf_ok : bool) (msg : string) (error : Z) :
  - 2 ^ 31 < error < 2 ^ 31 ->
  exceptionMessage strerror asprintf_ok msg error
  = exceptionMessage strerror asprintf_ok msg (- error)
  /\ exceptionMessage strerror true msg error
     = Some (String.append msg (strerror (Z.abs error))).
Proof.
  intros He. unfold exceptionMessage.
  destruct (Z.ltb_spec error 0); destruct (Z.ltb_spec (- error) 0);
    try lia;
    rewrite ?Z.mul_opp_r, ?Z.mul_1_r, ?Z.opp_involutive;
    rewrite ?wrap_int_small by (unfold is_int; lia).
  - rewrite Z.abs_neq by lia.
    replace (error * -1) with (- error) by lia. auto.
  - rewrite Z.abs_eq by lia.
    replace (- error * -1) with error by lia. auto.
  - replace error with 0 by lia. auto.
Qed.

Lemma exceptionMessage_ignores_sign_witness :
  exceptionMessage sample_strerror true "Cannot open file:" (-9)
  = Some "Cannot open file:Bad file descriptor"%string.
Proof.
  rewrite (proj2 (exceptionMessage_ignores_sign sample_strerror true
                    "Cannot open file:" (-9) ltac:(lia))).
  reflexivity.
Defined.

(** ** Aligned buffers: refusals *)

(** [newAlignedBuffer] hands out a buffer only when [size] is a multiple of
    [alignment] and the allocation succeeds.  Where [size % alignment] is
    defined, that is for an [alignment] other than 0 and not for the pair
    [INT_MIN], [-1] (on both the division traps), a [size] that is not a
    multiple is refused before any allocation, whatever the allocator would
    answer; an allocation that fails with error number [e] is reported with
    the system's message for [e].  A refusal throws exactly one
    [RuntimeException], returns no buffer and changes nothing else. *)
Theorem newAlignedBuffer_refusals
    (strerror : Z -> string)
    (posix_memalign : Z -> Z -> Z * Z * list Byte.byte)
    (size alignment : Z) (w : world) :
  is_int size -> is_int alignment -> alignment <> 0 ->
  size <> - 2 ^ 31 \/ alignment <> -1 ->
  (Z.rem size alignment <> 0 ->
   newAlignedBuffer strerror posix_memalign true size alignment w
   = (None,
      mk_world (control w) (ring w) (heap w)
        (calls w
         ++ [ThrowNew RuntimeException
               (Some "Buffer size needs to be aligned to passed argument"%string)])))
  /\ (Z.rem size alignment = 0 ->
      forall e buffer block,
        posix_memalign (size_t alignment) (size_t size) = (e, buffer, block) ->
        0 < e < 2 ^ 31 ->
        newAlignedBuffer strerror posix_memalign true size alignment w
        = (None,
           mk_world (control w) (ring w) (heap w)
             (calls w
              ++ [ThrowNew RuntimeException
                    (Some (String.append "Can't allocate posix buffer:"
                             (strerror e)))]))).
Proof.
  intros Hs Ha Ha0 _. unfold newAlignedBuffer. split.
  - intros Hrem.
    assert (Hr : is_int (Z.rem size alignment)).
    { pose proof (Z.rem_bound_abs size alignment Ha0).
      unfold is_int in *. lia. }
    rewrite wrap_int_small by exact Hr.
    destruct (Z.eqb_spec (Z.rem size alignment) 0); [contradiction|].
    reflexivity.
  - intros Hrem e buffer block Halloc He. rewrite Hrem, Halloc.
    change (negb (wrap_int 0 =? 0)) with false. cbv iota.
    destruct (Z.eqb_spec e 0); [lia|]. cbn [negb].
    unfold throwRuntimeExceptionErrorNo, exceptionMessage, log.
    destruct (Z.ltb_spec e 0); [lia|]. reflexivity.
Qed.

Lemma newAlignedBuffer_refusals_witness :
  newAlignedBuffer sample_strerror stale_memalign true 10 4 sample_world
  = (None,
     mk_world fresh_pool idle_ring sample_heap
       [ThrowNew RuntimeException
          (Some "Buffer size needs to be aligned to passed argument"%string)]).
Proof.
  apply (newAlignedBuffer_refusals sample_strerror stale_memalign 10 4
           sample_world).
  - unfold is_int. lia.
  - unfold is_int. lia.
  - discriminate.
  - left. discriminate.
  - discriminate.
Defined.

(** ** Creating a context *)

Lemma newContext_iocbs_complete :
  forall n answers slots,
    (n <= length answers)%nat ->
    Forall (fun p => p <> 0) (take n answers) ->
    newContext_iocbs n answers slots = (slots ++ take n answers, true).
Proof.
  induction n as [|n IH]; intros answers slots Hlen Hnn.
  - cbn. now rewrite app_nil_r.
  - destruct answers as [|p answers]; [cbn in Hlen; lia|].
    cbn [take] in Hnn. apply Forall_cons in Hnn as [Hp Hnn].
    cbn [newContext_iocbs]. destruct (Z.eqb_spec p 0); [contradiction|].
    rewrite IH; [|cbn in Hlen; lia|assumption].
    cbn [take]. now rewrite <- app_assoc.
Qed.

Lemma newContext_iocbs_length :
  forall n answers slots slots',
    newContext_iocbs n answers slots = (slots', true) ->
    length slots' = (length slots + n)%nat.
Proof.
  induction n as [|n IH]; intros answers slots slots'.
  - cbn. intros [= <-]. lia.
  - cbn [newContext_iocbs]. destruct answers as [|p answers]; [discriminate|].
    destruct (p =? 0); [discriminate|].
    intros H. apply IH in H. rewrite length_app in H. cbn in H. lia.
Qed.

Lemma iocb_destroy_members_all slots q :
  length slots = Z.to_nat q ->
  iocb_destroy_members slots q = map (fun p => free (Iocb p)) slots.
Proof.
  intros Hlen. unfold iocb_destroy_members.
  apply list_eq. intros i. rewrite !lookup_map_list.
  destruct (decide (i < length slots)%nat) as [Hi|Hi].
  - rewrite lookup_seqZ_lt by lia. cbn.
    destruct (lookup_lt_is_Some_2 slots i Hi) as [x Hx].
    rewrite Hx. cbn. unfold array_get.
    replace (Z.to_nat (0 + Z.of_nat i)) with i by lia.
    now rewrite (list_lookup_total_correct _ _ _ Hx).
  - rewrite lookup_seqZ_ge by lia.
    rewrite (proj2 (lookup_ge_None slots i)) by lia. reflexivity.
Qed.

Lemma allocated_app l l' : allocated (l ++ l') = allocated l ++ allocated l'.
Proof. unfold allocated. now rewrite flat_map_app. Qed.

Lemma freed_app l l' : freed (l ++ l') = freed l ++ freed l'.
Proof. unfold freed. now rewrite flat_map_app. Qed.

Lemma allocated_mallocs slots :
  allocated (map (fun p => malloc (Iocb p)) slots) = map Iocb slots.
Proof.
  unfold allocated, freed.
  induction slots as [|p slots IH]; cbn; now rewrite ?IH.
Qed.

Lemma freed_mallocs slots :
  freed (map (fun p => malloc (Iocb p)) slots) = [].
Proof.
  unfold allocated, freed.
  induction slots as [|p slots IH]; cbn; now rewrite ?IH.
Qed.

Lemma freed_frees slots :
  freed (map (fun p => free (Iocb p)) slots) = map Iocb slots.
Proof.
  unfold allocated, freed.
  induction slots as [|p slots IH]; cbn; now rewrite ?IH.
Qed.

Lemma allocated_frees slots :
  allocated (map (fun p => free (Iocb p)) slots) = [].
Proof.
  unfold allocated, freed.
  induction slots as [|p slots IH]; cbn; now rewrite ?IH.
Qed.

Lemma count_throws_app l l' :
  length (List.filter is_native_throw (l ++ l'))
  = (length (List.filter is_native_throw l)
     + length (List.filter is_native_throw l'))%nat.
Proof. now rewrite List.filter_app, length_app. Qed.

Lemma no_throw_mallocs slots :
  List.filter is_native_throw (map (fun p => malloc (Iocb p)) slots) = [].
Proof. induction slots as [|p slots IH]; cbn; now rewrite ?IH. Qed.

Lemma no_throw_frees slots :
  List.filter is_native_throw (map (fun p => free (Iocb p)) slots) = [].
Proof. induction slots as [|p slots IH]; cbn; now rewrite ?IH. Qed.

Lemma no_destroy_mallocs slots :
  List.filter is_pthread_mutex_destroy
    (map (fun p => malloc (Iocb p)) slots) = [].
Proof. induction slots as [|p slots IH]; cbn; now rewrite ?IH. Qed.

Lemma no_destroy_frees slots :
  List.filter is_pthread_mutex_destroy
    (map (fun p => free (Iocb p)) slots) = [].
Proof. induction slots as [|p slots IH]; cbn; now rewrite ?IH. Qed.

(** Computes [allocated], [freed] and the throws of a log made of explicit
    calls and of the allocations or frees of a list of descriptors. *)
Ltac log_norm :=
  let Ham := fresh in let Hfm := fresh in
  let Hff := fresh in let Haf := fresh in
  let Htm := fresh in let Htf := fresh in
  pose proof allocated_mallocs as Ham; pose proof freed_mallocs as Hfm;
  pose proof freed_frees as Hff; pose proof allocated_frees as Haf;
  let Hdm := fresh in let Hdf := fresh in
  pose proof no_throw_mallocs as Htm; pose proof no_throw_frees as Htf;
  pose proof no_destroy_mallocs as Hdm; pose proof no_destroy_frees as Hdf;
  unfold allocated, freed in *;
  cbn [flat_map List.filter is_native_throw is_pthread_mutex_destroy app];
  rewrite ?flat_map_app, ?List.filter_app;
  rewrite ?Ham, ?Hfm, ?Hff, ?Haf, ?Htm, ?Htf, ?Hdm, ?Hdf;
  cbn [flat_map List.filter is_native_throw is_pthread_mutex_destroy app];
  clear Ham Hfm Hff Haf Htm Htf Hdm Hdf.

(** With every allocation and initialisation succeeding, [newContext]
    returns a context whose pool is well formed and idle: the slots hold the
    allocated descriptors in the order of their allocation, the capacity is
    the requested one, nothing is handed out, and read and write positions
    are at the first slot.  It allocated the control block, the array, each
    descriptor and the event buffer, freed nothing and threw nothing. *)
Theorem newContext_builds_idle_pool
    (strerror : Z -> string) (a : newContext_answers) (queueSize0 : Z)
    (evs : list io_event) :
  0 < queueSize0 < 2 ^ 31 ->
  control_block a = true ->
  queue_init a = 0 ->
  iocb_array a = true ->
  (Z.to_nat queueSize0 <= length (iocb_blocks a))%nat ->
  Forall (fun p => p <> 0) (take (Z.to_nat queueSize0) (iocb_blocks a)) ->
  iocbLock_init a = 0 ->
  pollLock_init a = 0 ->
  event_buffer a = Some evs ->
  exists w log,
    newContext strerror a queueSize0 = (Some w, log)
    /\ pool_wf (control w)
    /\ used (control w) = 0
    /\ iocbGet (control w) = 0
    /\ iocbPut (control w) = 0
    /\ queueSize (control w) = queueSize0
    /\ iocb (control w) = take (Z.to_nat queueSize0) (iocb_blocks a)
    /\ thisObject (control w) = this_ref a
    /\ calls w = []
    /\ allocated log
       = [ControlBlock; IocbArray]
         ++ map Iocb (take (Z.to_nat queueSize0) (iocb_blocks a))
         ++ [EventBuffer]
    /\ freed log = []
    /\ List.filter is_native_throw log = [].
Proof.
  intros Hq Hcb Hqi Hia Hlen Hnn Hl1 Hl2 Hev.
  unfold newContext. rewrite Hcb, Hqi, Hia, Hl1, Hl2, Hev.
  rewrite (newContext_iocbs_complete _ _ [] Hlen Hnn).
  cbn [negb Z.eqb app].
  set (slots := take (Z.to_nat queueSize0) (iocb_blocks a)).
  eexists _, _. split; [reflexivity|].
  cbn [control used iocbGet iocbPut queueSize iocb thisObject calls].
  split.
  { split; cbn [queueSize iocb iocbGet iocbPut]; try lia; [|assumption].
    unfold slots. rewrite length_take. lia. }
  repeat (split; [reflexivity|]).
  split; [|split]; log_norm; rewrite ?app_nil_r; reflexivity.
Qed.

Lemma newContext_builds_idle_pool_witness :
  exists w log,
    newContext sample_strerror good_answers 2 = (Some w, log)
    /\ iocb (control w) = [100; 200]
    /\ allocated log
       = [ControlBlock; IocbArray; Iocb 100; Iocb 200; EventBuffer].
Proof.
  destruct (newContext_builds_idle_pool sample_strerror good_answers 2
              empty_buffer)
    as (w & log & Hnew & _ & _ & _ & _ & _ & Hiocb & _ & _ & Hall & _).
  - lia.
  - reflexivity.
  - reflexivity.
  - reflexivity.
  - cbn. lia.
  - repeat constructor; discriminate.
  - reflexivity.
  - reflexivity.
  - reflexivity.
  - exists w, log. split; [exact Hnew|]. split; [exact Hiocb | exact Hall].
Defined.

Lemma iocb_destroy_bounded_all slots q :
  length slots = Z.to_nat q ->
  iocb_destroy_bounded slots q
  = map (fun p => free (Iocb p)) slots ++ [free IocbArray].
Proof.
  intros Hlen. unfold iocb_destroy_bounded.
  now rewrite iocb_destroy_members_all.
Qed.

(** When [newContext] returns null, one of two things happened.  Either one
    of its checks failed: then it has given back every block it allocated,
    the blocks freed being the blocks allocated, each once, whichever step
    failed; it threw exactly one exception; and the mutexes that were
    initialised before the failure are left as they are,
    [pthread_mutex_destroy] is not called.  Or every check passed and
    [NewDirectByteBuffer] answered null: then nothing is given back, the
    control block, the array, every descriptor and the event buffer stay
    allocated, and the function itself throws nothing. *)
Theorem newContext_rolls_back
    (strerror : Z -> string) (a : newContext_answers)
    (queueSize0 direct_buffer : Z) (built : option world)
    (log : list native_call) :
  newContext strerror a queueSize0 = (built, log) ->
  newContext_return direct_buffer built = 0 ->
  (built = None
   /\ freed log ≡ₚ allocated log
   /\ length (List.filter is_native_throw log) = 1%nat
   /\ List.filter is_pthread_mutex_destroy log = [])
  \/ (direct_buffer = 0
      /\ exists w,
           built = Some w
           /\ freed log = []
           /\ allocated log
              = [ControlBlock; IocbArray]
                ++ map Iocb (iocb (control w)) ++ [EventBuffer]
           /\ List.filter is_native_throw log = []).
Proof.
  unfold newContext, native_throwRuntimeExceptionErrorNo.
  destruct (control_block a); cbn [negb];
    [|intros [= <- <-] _; left; repeat split; reflexivity].
  destruct (queue_init a =? 0); cbn [negb];
    [|intros [= <- <-] _; left; repeat split; reflexivity].
  destruct (iocb_array a); cbn [negb];
    [|intros [= <- <-] _; left; repeat split; reflexivity].
  destruct (newContext_iocbs (Z.to_nat queueSize0) (iocb_blocks a) [])
    as [slots complete] eqn:Hloop.
  assert (Hperm : forall l : list block,
            l ++ [IocbArray; ControlBlock]
            ≡ₚ ControlBlock :: IocbArray :: l).
  { intros l. rewrite Permutation_app_comm. cbn [app].
    apply Permutation_swap. }
  destruct complete; cbn [negb].
  - apply newContext_iocbs_length in Hloop. cbn [length Nat.add] in Hloop.
    rewrite !(iocb_destroy_bounded_all slots queueSize0) by exact Hloop.
    destruct (iocbLock_init a =? 0); cbn [negb];
      [|intros [= <- <-] _; left; split; [reflexivity|];
        log_norm; rewrite ?app_nil_r, <- ?app_assoc;
        split; [apply Hperm|split; reflexivity]].
    destruct (pollLock_init a =? 0); cbn [negb];
      [|intros [= <- <-] _; left; split; [reflexivity|];
        log_norm; rewrite ?app_nil_r, <- ?app_assoc;
        split; [apply Hperm|split; reflexivity]].
    destruct (event_buffer a) as [evs|].
    + intros [= <- <-] Hret. cbn [newContext_return] in Hret.
      right. split; [exact Hret|]. eexists. split; [reflexivity|].
      cbn [control iocb].
      log_norm. rewrite ?app_nil_r. repeat split; reflexivity.
    + intros [= <- <-] _. left. split; [reflexivity|].
      log_norm. rewrite ?app_nil_r, <- ?app_assoc.
      split; [apply Hperm|split; reflexivity].
  - rewrite (iocb_destroy_bounded_all slots (Z.of_nat (length slots)))
      by lia.
    intros [= <- <-] _. left. split; [reflexivity|].
    log_norm. rewrite ?app_nil_r, <- ?app_assoc.
    split; [apply Hperm|split; reflexivity].
Qed.

Lemma newContext_rolls_back_witness :
  (newContext_return 0 (fst (newContext sample_strerror good_answers 2)) = 0
   /\ freed (snd (newContext sample_strerror good_answers 2)) = []
   /\ allocated (snd (newContext sample_strerror good_answers 2))
      = [ControlBlock; IocbArray; Iocb 100; Iocb 200; EventBuffer])
  /\ (newContext_return 4096
        (fst (newContext sample_strerror short_answers 2)) = 0
      /\ freed (snd (newContext sample_strerror short_answers 2))
         ≡ₚ allocated (snd (newContext sample_strerror short_answers 2))).
Proof.
  split.
  - destruct (newContext_rolls_back sample_strerror good_answers 2 0
                (fst (newContext sample_strerror good_answers 2))
                (snd (newContext sample_strerror good_answers 2))
                eq_refl eq_refl)
      as [(Hnone & _)|(_ & w & Hw & Hfreed & Halloc & _)].
    + discriminate Hnone.
    + split; [reflexivity|]. split; [exact Hfreed|].
      injection Hw as <-. exact Halloc.
  - destruct (newContext_rolls_back sample_strerror short_answers 2 4096
                (fst (newContext sample_strerror short_answers 2))
                (snd (newContext sample_strerror short_answers 2))
                eq_refl eq_refl)
      as [(_ & Hperm & _)|(Hnull & _)].
    + split; [reflexivity | exact Hperm].
    + discriminate Hnull.
Defined.

(** ** Destroying a context *)


Lemma deleteContext_submit_rejected strerror dumb result asprintf_ok
    theControl w :
  theControl <> 0 ->
  fst (getIOCB (control w)) <> 0 ->
  result < 0 ->
  deleteContext_submit strerror dumb result asprintf_ok theControl w
  = (false,
     mk_world
       (putIOCB (snd (getIOCB (control w))) (fst (getIOCB (control w))))
       (ring w)
       (<[fst (getIOCB (control w)) :=
            mk_iocb (-1) IO_CMD_PWRITE dumb 0 0 0]> (heap w))
       (calls w
        ++ [ThrowNew IOException
              (exceptionMessage strerror asprintf_ok
                 "Error while submitting IO: " (wrap_int (- result)))])).
Proof.
  intros Hc Hp Hres. unfold deleteContext_submit.
  destruct (Z.eqb_spec theControl 0); [contradiction|].
  destruct (getIOCB (control w)) as [p c]. cbn [fst snd] in *.
  destruct (Z.eqb_spec p 0); [contradiction|].
  rewrite submit_rejected by assumption.
  unfold store_data, io_prep_pwrite, io_prep, with_heap, with_control, deref,
    release_handle.
  cbn [control ring heap calls Z.eqb negb].
  rewrite !lookup_total_insert_eq. cbn.
  now rewrite !insert_insert_eq.
Qed.

(** [deleteContext] does not destroy a context on which it cannot place its
    dumb write.  With every descriptor handed out it throws the "queue full"
    [IOException]; when the kernel rejects the write it throws the submission
    error, with [used] back at its value and without passing the sentinel
    marker to [DeleteGlobalRef].  In both cases it frees and releases nothing,
    the poller is not waited for and the ring is not read. *)
Theorem deleteContext_gives_up
    (strerror : Z -> string) (dumb : Z) (result : Z) (asprintf_ok : bool)
    (poller : world -> world) (io_getevents : syscall) (theControl : Z)
    (w : world) :
  theControl <> 0 ->
  is_int (used (control w)) ->
  (queueSize (control w) <= used (control w) ->
   deleteContext strerror dumb result asprintf_ok poller io_getevents
     theControl w
   = (mk_world (control w) (ring w) (heap w)
        (calls w
         ++ [ThrowNew IOException
               (Some "Not enough space in libaio queue"%string)]),
      []))
  /\ (fst (getIOCB (control w)) <> 0 ->
      - 2 ^ 31 < result < 0 ->
      exists w',
        deleteContext strerror dumb result asprintf_ok poller io_getevents
          theControl w
        = (w', [])
        /\ used (control w') = used (control w)
        /\ calls w'
           = calls w
             ++ [ThrowNew IOException
                   (exceptionMessage strerror asprintf_ok
                      "Error while submitting IO: " (- result))]).
Proof.
  intros Hc Hint. split.
  - intros Hfull. unfold deleteContext, deleteContext_submit.
    destruct (Z.eqb_spec theControl 0); [contradiction|].
    rewrite getIOCB_full by assumption. cbn. now destruct w.
  - intros Hp Hres. unfold deleteContext.
    rewrite deleteContext_submit_rejected by (assumption || lia).
    cbn [negb]. eexists. split; [reflexivity|]. cbn [control calls]. split.
    + apply (used_putIOCB_after_getIOCB (control w)
               (snd (getIOCB (control w))) (fst (getIOCB (control w))));
        auto.
      now destruct (getIOCB (control w)).
    + now rewrite wrap_int_small by (unfold is_int; lia).
Qed.

Lemma deleteContext_gives_up_witness :
  deleteContext sample_strerror 3 1 true (fun w => w) wait_one 1 busy_world
  = (mk_world (control busy_world) idle_ring busy_heap
       [ThrowNew IOException (Some "Not enough space in libaio queue"%string)],
     []).
Proof.
  apply (deleteContext_gives_up sample_strerror 3 1 true (fun w => w)
           wait_one 1 busy_world).
  - discriminate.
  - unfold is_int. cbn. lia.
  - cbn. lia.
Defined.




(** ** The life of a context *)




(** ** Filling a file *)


Lemma fill_blocks_fails write_result fd buffer :
  forall n i j,
    (i <= j < i + n)%nat ->
    write_result j < 0 ->
    (forall k, (i <= k < j)%nat -> 0 <= write_result k) ->
    fill_blocks n i write_result fd buffer
    = (replicate (S (j - i)) (write fd buffer ONE_MEGA), false).
Proof.
  induction n as [|n IH]; intros i j Hj Hneg Hok; [lia|].
  cbn [fill_blocks].
  destruct (decide (i = j)) as [->|Hne].
  - destruct (Z.ltb_spec (write_result j) 0); [|lia].
    now rewrite Nat.sub_diag.
  - destruct (Z.ltb_spec (write_result i) 0);
      [specialize (Hok i ltac:(lia)); lia|].
    rewrite (IH (S i) j) by (lia || assumption || (intros; apply Hok; lia)).
    replace (S (j - i)) with (S (S (j - S i))) by lia. reflexivity.
Qed.



Lemma filter_write_replicate n fd buffer count :
  List.filter is_write (replicate n (write fd buffer count))
  = replicate n (write fd buffer count).
Proof. induction n as [|n IH]; cbn; now rewrite ?IH. Qed.



(** [fill] stops at the first write that fails.  When the write number [j]
    of the whole blocks is the first to return a negative result, [fill] has
    issued [j + 1] writes of one megabyte, throws the [IOException] "Cannot
    initialize file" and returns at once: the remaining blocks and the
    remainder are not written and the file is not rewound. *)
Theorem fill_stops_at_failed_write
    (posix_memalign : Z -> Z -> Z * Z * list Byte.byte)
    (write_result : nat -> Z) (oneMegaBuffer : Z * list Byte.byte)
    (fd alignment size : Z) (j : nat) :
  0 <= size < 2 ^ 31 * ONE_MEGA ->
  Z.of_nat j < size / ONE_MEGA ->
  write_result j < 0 ->
  (forall k, (k < j)%nat -> 0 <= write_result k) ->
  fill posix_memalign write_result oneMegaBuffer fd alignment size
  = (snd (verifyBuffer posix_memalign alignment oneMegaBuffer),
     lseek fd 0
     :: replicate (S j)
          (write fd
             (fst (snd (verifyBuffer posix_memalign alignment
                          oneMegaBuffer)))
             ONE_MEGA),
     Some "Cannot initialize file"%string).
Proof.
  intros Hsize Hj Hneg Hok. unfold fill.
  assert (HM : ONE_MEGA = 1048576) by reflexivity.
  assert (Hq : Z.quot size ONE_MEGA = size / ONE_MEGA)
    by (apply Z.quot_div_nonneg; lia).
  assert (Hdb : 0 <= size / ONE_MEGA < 2 ^ 31).
  { split; [apply Z.div_pos; lia|].
    apply Z.div_lt_upper_bound; lia. }
  rewrite Hq. rewrite (wrap_int_small (size / ONE_MEGA))
    by (unfold is_int; lia).
  rewrite (fill_blocks_fails write_result fd _ _ 0 j)
    by (lia || assumption || (intros; apply Hok; lia)).
  rewrite Nat.sub_0_r. reflexivity.
Qed.

Lemma fill_stops_at_failed_write_witness :
  fill mega_memalign third_write_fails (7, []) 5 8 (5 * ONE_MEGA)
  = ((7, []),
     [lseek 5 0; write 5 7 ONE_MEGA; write 5 7 ONE_MEGA; write 5 7 ONE_MEGA],
     Some "Cannot initialize file"%string).
Proof.
  apply (fill_stops_at_failed_write mega_memalign third_write_fails (7, [])
           5 8 (5 * ONE_MEGA) 2).
  - unfold ONE_MEGA. lia.
  - reflexivity.
  - reflexivity.
  - intros k Hk. destruct k as [|[|k]]; [discriminate..|lia].
Defined.

(** ** The shared zero buffer *)

(** [verifyBuffer] allocates once.  On a null [oneMegaBuffer] a successful
    allocation leaves a buffer whose first megabyte is all zero; a failed one
    returns [-1] and leaves the pointer null, so a later call tries again.
    Once the buffer is there, every call returns 0 and leaves it untouched,
    whatever the allocator would answer. *)
Theorem verifyBuffer_allocates_once
    (posix_memalign posix_memalign' : Z -> Z -> Z * Z * list Byte.byte)
    (alignment alignment' : Z) (stale : list Byte.byte) (res buffer : Z)
    (block : list Byte.byte) :
  posix_memalign (size_t alignment) ONE_MEGA = (res, buffer, block) ->
  ONE_MEGA <= Z.of_nat (length block) ->
  buffer <> 0 ->
  (res = 0 ->
   verifyBuffer posix_memalign alignment (0, stale)
   = (0, (buffer,
          replicate (Z.to_nat ONE_MEGA) Byte.x00
          ++ drop (Z.to_nat ONE_MEGA) block))
   /\ verifyBuffer posix_memalign' alignment'
        (snd (verifyBuffer posix_memalign alignment (0, stale)))
      = (0, snd (verifyBuffer posix_memalign alignment (0, stale))))
  /\ (res <> 0 ->
      verifyBuffer posix_memalign alignment (0, stale) = (-1, (0, stale))).
Proof.
  intros Halloc Hlen Hb. split.
  - intros ->.
    assert (H1 : verifyBuffer posix_memalign alignment (0, stale)
                 = (0, (buffer,
                        replicate (Z.to_nat ONE_MEGA) Byte.x00
                        ++ drop (Z.to_nat ONE_MEGA) block))).
    { unfold verifyBuffer. cbn [fst Z.eqb]. rewrite Halloc. cbn [Z.eqb negb].
      unfold memset.
      replace (Z.to_nat ONE_MEGA `min` length block)%nat
        with (Z.to_nat ONE_MEGA) by lia.
      reflexivity. }
    split; [exact H1|]. rewrite H1. cbn [snd].
    unfold verifyBuffer. cbn [fst].
    destruct (Z.eqb_spec buffer 0); [contradiction|reflexivity].
  - intros Hres. unfold verifyBuffer. cbn [fst Z.eqb]. rewrite Halloc.
    destruct (Z.eqb_spec res 0); [contradiction|reflexivity].
Qed.

Lemma verifyBuffer_allocates_once_witness :
  verifyBuffer stale_memalign 4
    (snd (verifyBuffer mega_memalign 8 (0, [])))
  = (0, snd (verifyBuffer mega_memalign 8 (0, []))).
Proof.
  refine (proj2 (proj1 (verifyBuffer_allocates_once mega_memalign
            stale_memalign 8 4 [] 0 8192
            (replicate (Z.to_nat ONE_MEGA) Byte.xff) eq_refl _ _) eq_refl)).
  - rewrite length_replicate. lia.
  - discriminate.
Defined.

(** ** The scratch descriptor *)

(** [closeDumbHandlers] clears [dumbWriteHandler] before it closes it: the
    descriptor it passes to [close] is 0, never the scratch descriptor it was
    called with.  It acts once: after it, [dumbWriteHandler] is 0 and a second
    call, as [JNI_OnUnload] makes after the shutdown hook, does nothing. *)
Theorem closeDumbHandlers_once (dumbWriteHandler : Z) :
  dumbWriteHandler <> 0 ->
  closeDumbHandlers dumbWriteHandler = (0, [close 0; unlink_dumbPath])
  /\ ~ In (close dumbWriteHandler) (snd (closeDumbHandlers dumbWriteHandler))
  /\ closeDumbHandlers (fst (closeDumbHandlers dumbWriteHandler)) = (0, []).
Proof.
  intros Hd. unfold closeDumbHandlers.
  destruct (Z.eqb_spec dumbWriteHandler 0); [contradiction|]. cbn.
  split; [reflexivity|]. split; [|reflexivity].
  intros [H|[H|[]]]; [|discriminate]. injection H as H. congruence.
Qed.

Lemma closeDumbHandlers_once_witness :
  closeDumbHandlers 3 = (0, [close 0; unlink_dumbPath]).
Proof.
  apply (closeDumbHandlers_once 3). discriminate.
Defined.

(** ** When the reader waits *)

(** Which path [artemis_io_getevents] takes.  On a valid ring a call with a
    minimum that is not positive, or with a zero timeout, never enters the
    system call: its result is the same whatever the system call would
    answer, and its count is not negative.  On a ring whose tag or feature
    word does not match, the ring is never read: the result is the one of the
    system call, given the ring and the buffer as they were. *)
Theorem getevents_path_choice
    (io_getevents io_getevents' : syscall) (ring : aio_ring)
    (min_nr max : Z) (evs : list io_event) (timeout : option timespec) :
  0 <= max ->
  (ring_valid ring ->
   min_nr <= 0 \/ zero_timeout timeout = true ->
   artemis_io_getevents io_getevents ring min_nr max evs timeout
   = artemis_io_getevents io_getevents' ring min_nr max evs timeout
   /\ 0 <= fst (fst (artemis_io_getevents io_getevents ring min_nr max evs
                       timeout)) <= max)
  /\ (has_usable_ring ring = false ->
      artemis_io_getevents io_getevents ring min_nr max evs timeout
      = io_getevents ring min_nr max evs timeout).
Proof.
  intros Hmax. split.
  - intros Hv Hcond.
    pose proof (ring_available_bounds _ Hv) as Hav.
    assert (Hsome : exists res,
              fast_path ring min_nr max evs timeout = Some res).
    { unfold fast_path. rewrite (rv_usable _ Hv).
      assert (Hc : (min_nr <=? ring_available ring) || zero_timeout timeout
                   = true).
      { destruct Hcond as [Hm| ->]; [|apply orb_true_r].
        destruct (Z.leb_spec min_nr (ring_available ring)); [reflexivity|lia]. }
      rewrite Hc. destruct (ring_available ring =? 0); [eauto|].
      destruct (copy_loop _ _ _ _ _ _ _). eauto. }
    destruct Hsome as [[[n evs'] ring'] Hfp].
    unfold artemis_io_getevents. rewrite Hfp. split; [reflexivity|].
    cbn [fst].
    now destruct (fast_path_ring_after _ _ _ _ _ _ _ _ Hv Hmax Hfp)
      as (_ & _ & _ & _ & Hn & _).
  - intros Hu. unfold artemis_io_getevents, fast_path. now rewrite Hu.
Qed.

Lemma getevents_path_choice_witness :
  artemis_io_getevents wait_one idle_ring 0 1 empty_buffer None
  = artemis_io_getevents wait_interrupted idle_ring 0 1 empty_buffer None.
Proof.
  refine (proj1 (proj1 (getevents_path_choice wait_one wait_interrupted
            idle_ring 0 1 empty_buffer None _) idle_ring_valid _)).
  - lia.
  - left. lia.
Defined.
